(** * Portunus: the libcrypt shim [internal/crypt/lowlevel.c]

    A shallow embedding of the three C functions that Portunus exposes to
    its Go side ([feature_test], [wrap_crypt_r], [wrap_crypt_gensalt_rn])
    over a small block memory, together with the properties of the
    shim's contract.

    Layout of the development:
    - C strings as lists of bytes;
    - what [<crypt.h>] provides (macros, the layout of [struct crypt_data],
      the two reentrant primitives), as type classes;
    - a block memory with automatic and allocated storage, and a monad of
      computations that may have undefined behaviour;
    - the libc functions the shim calls ([strlen], [memset], [strdup],
      [strndup]);
    - the three functions of [lowlevel.c];
    - the vocabulary of the statements;
    - a miniature libcrypt used to run the shim on concrete inputs;
    - the theorems, and the shim run on the miniature library. *)

From Stdlib Require Import ZArith Lia String Ascii.
From stdpp Require Import base option list gmap.

Local Open Scope nat_scope.

(** ** Bytes and C strings *)

Abbreviation byte := Byte.byte.

#[global] Instance byte_eq_dec : EqDecision byte := Byte.byte_eq_dec.

(** The terminator of a C string. *)
Definition NUL : byte := Byte.x00.

Definition is_nul (c : byte) : bool := Byte.eqb c NUL.

(** The bytes of [l] before its first [NUL] (all of [l] when it has
    none): what a reader of a C string sees. *)
Fixpoint until_nul (l : list byte) : list byte :=
  match l with
  | [] => []
  | c :: l' => if is_nul c then [] else c :: until_nul l'
  end.

(** Whether [l] holds a terminator. *)
Definition has_nul (l : list byte) : bool := existsb is_nul l.

(** Whether the text [needle] occurs in [s] (used to read the messages of
    [feature_test]). *)
Fixpoint mentions (s needle : string) : bool :=
  String.prefix needle s ||
  match s with
  | EmptyString => false
  | String _ s' => mentions s' needle
  end.

(** ** What [<crypt.h>] provides *)

(** The macros of the header and the layout of [struct crypt_data].  A
    feature macro is [true] when it is defined. *)
Class CryptHeader := {
  CRYPT_GENSALT_IMPLEMENTS_DEFAULT_PREFIX : bool;
  CRYPT_GENSALT_IMPLEMENTS_AUTO_ENTROPY : bool;
  CRYPT_GENSALT_OUTPUT_SIZE : nat;
  sizeof_crypt_data : nat;
  (** [offsetof(struct crypt_data, output)] *)
  offsetof_output : nat;
  offsetof_output_le : offsetof_output ≤ sizeof_crypt_data;
}.

(** ** [feature_test] *)

Section FeatureTest.
Context `{CryptHeader}.

(** A [const char*] that is either [NULL] or a string literal is an
    [option string]. *)
Definition feature_test : option string :=
  if negb CRYPT_GENSALT_IMPLEMENTS_DEFAULT_PREFIX then
    Some "libcrypt does not support CRYPT_GENSALT_IMPLEMENTS_DEFAULT_PREFIX"%string
  else if negb CRYPT_GENSALT_IMPLEMENTS_AUTO_ENTROPY then
    Some "libcrypt does not support CRYPT_GENSALT_IMPLEMENTS_AUTO_ENTROPY"%string
  else None.
End FeatureTest.

(** The two reentrant primitives of the library, as functions of what
    they read.  A string argument is [None] when the pointer passed is
    [NULL].  The answer holds the pointer returned ([None] for [NULL],
    [Some o] for a pointer [o] bytes into the buffer written) and the new
    contents of the buffer written.  Salt generation also consumes bytes of
    the operating system's entropy source. *)
Class Libcrypt `{CryptHeader} := {
  (** [crypt_r(phrase, setting, data)] *)
  lib_crypt_r :
    option (list byte) → option (list byte) → list byte →
    option nat * list byte;
  (** [crypt_gensalt_rn(prefix, count, rbytes, nrbytes, output, output_size)] *)
  lib_crypt_gensalt_rn :
    list byte → option (list byte) → Z → option (list byte) → Z →
    list byte → Z → option nat * list byte * list byte;
  (** The library writes inside the objects it is given. *)
  lib_crypt_r_length phrase setting data :
    length (lib_crypt_r phrase setting data).2 = length data;
  lib_crypt_gensalt_rn_length ent prefix count rbytes nrbytes output size :
    length (lib_crypt_gensalt_rn ent prefix count rbytes nrbytes output size).1.2
    = length output;
  (** A hash that was produced is a terminated string in [data->output]. *)
  lib_crypt_r_output phrase setting data :
    length data = sizeof_crypt_data →
    (lib_crypt_r phrase setting data).1 ≠ None →
    has_nul (drop offsetof_output (lib_crypt_r phrase setting data).2) = true;
}.

(** ** Memory *)

Definition block := positive.
Bind Scope positive_scope with block.

Inductive ptr :=
  | NULL
  | Ptr (b : block) (ofs : nat).

#[global] Instance ptr_eq_dec : EqDecision ptr.
Proof. solve_decision. Defined.

Definition is_null (p : ptr) : bool :=
  match p with NULL => true | Ptr _ _ => false end.

(** Pointer arithmetic on [char*]. *)
Definition ptr_add (p : ptr) (n : nat) : ptr :=
  match p with NULL => NULL | Ptr b ofs => Ptr b (ofs + n) end.

(** Storage duration: a local variable, or a block from [malloc]. *)
Inductive storage := Automatic | Allocated.

(** An object keeps its bytes when its lifetime ends; it can no longer be
    read or written. *)
Record object := Object {
  obj_storage : storage;
  obj_live : bool;
  obj_bytes : list byte;
}.

(** The calls made into libcrypt, with the arguments as passed. *)
Inductive call :=
  | call_crypt_r (phrase setting data : ptr)
  | call_crypt_gensalt_rn (prefix : ptr) (count : Z) (rbytes : ptr)
      (nrbytes : Z) (output : ptr) (output_size : Z).

Record mem := Mem {
  objects : gmap block object;
  (** what storage that was never written happens to hold *)
  indeterminate : block → nat → byte;
  (** the bytes the operating system's entropy source will deliver *)
  entropy : list byte;
  (** the calls made into libcrypt so far, oldest first *)
  calls : list call;
  (** the bytes [malloc] can still provide *)
  heap_room : nat;
}.

Definition set_objects (f : gmap block object → gmap block object) (m : mem) : mem :=
  Mem (f (objects m)) (indeterminate m) (entropy m) (calls m) (heap_room m).

Definition set_entropy (e : list byte) (m : mem) : mem :=
  Mem (objects m) (indeterminate m) e (calls m) (heap_room m).

Definition log_call (c : call) (m : mem) : mem :=
  Mem (objects m) (indeterminate m) (entropy m) (calls m ++ [c]) (heap_room m).

Definition set_heap_room (n : nat) (m : mem) : mem :=
  Mem (objects m) (indeterminate m) (entropy m) (calls m) n.

(** The bytes of a live object. *)
Definition live_bytes (m : mem) (b : block) : option (list byte) :=
  match objects m !! b with
  | Some o => if obj_live o then Some (obj_bytes o) else None
  | None => None
  end.

(** The bytes from [p] to the end of its object. *)
Definition load (m : mem) (p : ptr) : option (list byte) :=
  match p with
  | NULL => None
  | Ptr b ofs =>
      match live_bytes m b with
      | Some l => if decide (ofs ≤ length l) then Some (drop ofs l) else None
      | None => None
      end
  end.

(** The C string at [p]: defined when a terminator lies between [p] and
    the end of the object. *)
Definition load_cstring (m : mem) (p : ptr) : option (list byte) :=
  match load m p with
  | Some l => if has_nul l then Some (until_nul l) else None
  | None => None
  end.

(** A string argument of a function that accepts [NULL]. *)
Definition load_arg (m : mem) (p : ptr) : option (option (list byte)) :=
  match p with
  | NULL => Some None
  | Ptr _ _ => Some <$> load_cstring m p
  end.

(** An array argument of [n] bytes. *)
Definition load_array (m : mem) (p : ptr) (n : nat) : option (list byte) :=
  match load m p with
  | Some l => if decide (n ≤ length l) then Some (take n l) else None
  | None => None
  end.

(** [l] with the bytes from [ofs] on replaced by [new]. *)
Definition splice (l : list byte) (ofs : nat) (new : list byte) : list byte :=
  take ofs l ++ new ++ drop (ofs + length new) l.

(** ** Computations *)

(** A computation runs on a memory and either has undefined behaviour
    ([None]) or yields a value and the memory it leaves. *)
Definition M (A : Type) : Type := mem → option (A * mem).

#[global] Instance M_ret : MRet M := λ A a m, Some (a, m).
#[global] Instance M_bind : MBind M := λ A B f c m,
  match c m with
  | Some (a, m') => f a m'
  | None => None
  end.

Definition get {A} (f : mem → option A) : M A := λ m,
  match f m with Some a => Some (a, m) | None => None end.

Definition modify (f : mem → mem) : M unit := λ m, Some ((), f m).

(** Write [new] at [p]. *)
Definition store (p : ptr) (new : list byte) : M unit := λ m,
  match p with
  | NULL => None
  | Ptr b ofs =>
      match objects m !! b with
      | Some o =>
          if obj_live o && bool_decide (ofs + length new ≤ length (obj_bytes o)) then
            Some ((), set_objects
                        <[b := Object (obj_storage o) true (splice (obj_bytes o) ofs new)]> m)
          else None
      | None => None
      end
  end.

(** A new object of [n] bytes; its contents are indeterminate.  This is
    how a local variable comes to be, and what [malloc] below does once
    it has found room. *)
Definition alloc (s : storage) (n : nat) : M ptr := λ m,
  let b := fresh (dom (objects m)) in
  Some (Ptr b 0, set_objects <[b := Object s true (indeterminate m b <$> seq 0 n)]> m).

(** The end of the lifetime of the object [p] points to. *)
Definition release (p : ptr) : M unit := λ m,
  match p with
  | Ptr b 0 =>
      match objects m !! b with
      | Some o =>
          if obj_live o then
            Some ((), set_objects <[b := Object (obj_storage o) false (obj_bytes o)]> m)
          else None
      | None => None
      end
  | _ => None
  end.

(** A local array of [n] bytes whose scope is [body]. *)
Definition with_local {A} (n : nat) (body : ptr → M A) : M A :=
  p ← alloc Automatic n;
  r ← body p;
  _ ← release p;
  mret r.

(** ** The libc functions used by the shim *)

(** [strlen(s)]: undefined unless [s] points to a terminated string. *)
Definition strlen (s : ptr) : M nat :=
  get (λ m, length <$> load_cstring m s).

(** [memset(s, c, n)] *)
Definition memset (s : ptr) (c : byte) (n : nat) : M ptr :=
  _ ← store s (replicate n c);
  mret s.

(** What [strnlen]-style reading of at most [n] bytes at [p] sees: the
    bytes before the first terminator among the first [n], or the first
    [n] bytes when none of them is a terminator. *)
Definition load_bounded (m : mem) (p : ptr) (n : nat) : option (list byte) :=
  match load m p with
  | Some l =>
      if has_nul (take n l) || bool_decide (n ≤ length l) then
        Some (until_nul (take n l))
      else None
  | None => None
  end.

(** [malloc(n)]: a new block when the heap has room for it, [NULL]
    otherwise. *)
Definition malloc (n : nat) : M ptr := λ m,
  if decide (n ≤ heap_room m) then
    alloc Allocated n (set_heap_room (heap_room m - n) m)
  else Some (NULL, m).

(** A block from [malloc] holding [str] and a terminator, or [NULL] when
    [malloc] fails: what [strdup] and [strndup] return for the string
    [str]. *)
Definition new_string (str : list byte) : M ptr :=
  p ← malloc (length str + 1);
  if is_null p then mret NULL
  else
    _ ← store p (str ++ [NUL]);
    mret p.

(** [strdup(s)] *)
Definition strdup (s : ptr) : M ptr :=
  str ← get (λ m, load_cstring m s);
  new_string str.

(** [strndup(s, n)] *)
Definition strndup (s : ptr) (n : nat) : M ptr :=
  str ← get (λ m, load_bounded m s n);
  new_string str.

(** ** The shim *)

Section Shim.
Context `{Libcrypt}.

(** A call of the library's [crypt_r]: the library reads the two
    strings and the scratch structure, and writes the structure. *)
Definition crypt_r (phrase setting data : ptr) : M ptr :=
  ph ← get (λ m, load_arg m phrase);
  st ← get (λ m, load_arg m setting);
  d ← get (λ m, load_array m data sizeof_crypt_data);
  let r := lib_crypt_r ph st d in
  _ ← store data r.2;
  _ ← modify (log_call (call_crypt_r phrase setting data));
  mret (match r.1 with None => NULL | Some o => ptr_add data o end).

(** A call of the library's [crypt_gensalt_rn]. *)
Definition crypt_gensalt_rn (prefix : ptr) (count : Z) (rbytes : ptr)
    (nrbytes : Z) (output : ptr) (output_size : Z) : M ptr :=
  pf ← get (λ m, load_arg m prefix);
  rb ← get (λ m, match rbytes with
                 | NULL => Some None
                 | Ptr _ _ => Some <$> load_array m rbytes (Z.to_nat nrbytes)
                 end);
  out ← get (λ m, load_array m output (Z.to_nat output_size));
  ent ← get (λ m, Some (entropy m));
  let r := lib_crypt_gensalt_rn ent pf count rb nrbytes out output_size in
  _ ← store output r.1.2;
  _ ← modify (set_entropy r.2);
  _ ← modify (log_call
                (call_crypt_gensalt_rn prefix count rbytes nrbytes output output_size));
  mret (match r.1.1 with None => NULL | Some o => ptr_add output o end).

Definition wrap_crypt_r (phrase setting : ptr) : M ptr :=
  with_local sizeof_crypt_data (λ data,
    _ ← memset data NUL sizeof_crypt_data;
    result ← crypt_r phrase setting data;
    if is_null result then mret NULL
    else strdup (ptr_add data offsetof_output)).

Definition wrap_crypt_gensalt_rn (prefix : ptr) : M ptr :=
  n ← strlen prefix;
  let prefix := if decide (n = 0) then NULL else prefix in
  with_local CRYPT_GENSALT_OUTPUT_SIZE (λ buf,
    result ← crypt_gensalt_rn prefix 0 NULL 0 buf (Z.of_nat CRYPT_GENSALT_OUTPUT_SIZE);
    if is_null result then mret NULL
    else strndup buf CRYPT_GENSALT_OUTPUT_SIZE).
End Shim.

(** ** What a caller observes *)

(** The text behind a returned pointer: [None] for [NULL] (the error
    value), otherwise the string the caller reads there. *)
Definition text (m : mem) (p : ptr) : option (list byte) := load_cstring m p.

(** The bytes of an object, live or not. *)
Definition bytes_of (m : mem) (b : block) : list byte :=
  match objects m !! b with Some o => obj_bytes o | None => [] end.

Definition live (m : mem) (b : block) : Prop := is_Some (live_bytes m b).

(** A pointer that may be passed where a string or [NULL] is expected. *)
Definition valid_arg (m : mem) (p : ptr) : Prop := is_Some (load_arg m p).

(** A pointer to a terminated string. *)
Definition valid_string (m : mem) (p : ptr) : Prop := is_Some (load_cstring m p).

(** ** Specification vocabulary *)

(** [m] with the object [o] at block [b]. *)
Definition with_object (b : block) (o : object) (m : mem) : mem :=
  set_objects <[b := o]> m.

(** Every object of [m] is the same in [m']: same storage, liveness and
    bytes. *)
Definition unchanged (m m' : mem) : Prop :=
  ∀ b, b ∈ dom (objects m) → objects m' !! b = objects m !! b.

(** What a call of the shim does to the objects of [m]: it creates a
    local object [scratch], released with the bytes [d] in it at the
    return, and, when it succeeds ([ok]), one block from [malloc] that
    holds [str] and a terminator, to which the pointer [r] returned
    points; when it fails, [r] is [NULL]. *)
Definition outcome (m : mem) (scratch : block) (d str : list byte)
    (ok : bool) (r : ptr) (m' : mem) : Prop :=
  objects m !! scratch = None ∧
  if ok then
    ∃ b', b' ≠ scratch ∧ objects m !! b' = None ∧ r = Ptr b' 0 ∧
      objects m' = <[scratch := Object Automatic false d]>
                     (<[b' := Object Allocated true (str ++ [NUL])]> (objects m))
  else
    r = NULL ∧ objects m' = <[scratch := Object Automatic false d]> (objects m).

(** The block the next [alloc] takes. *)
Definition next_block (m : mem) : block := fresh (dom (objects m)).

(** Whether a primitive of the library returned a pointer. *)
Definition succeeded (ret : option nat) : bool :=
  match ret with Some _ => true | None => false end.

(** Whether [malloc] has room for a copy of the string [str]. *)
Definition can_copy (str : list byte) (m : mem) : bool :=
  bool_decide (length str + 1 ≤ heap_room m).

Section Answers.
Context `{Libcrypt}.

(** The scratch structure after [memset]. *)
Definition zeroed_data : list byte := replicate sizeof_crypt_data NUL.

(** The answer of the library to the call [wrap_crypt_r] makes for the
    strings [ph] and [st]. *)
Definition hash_answer (ph st : option (list byte)) : option nat * list byte :=
  lib_crypt_r ph st zeroed_data.

(** The string in [data->output] after that call. *)
Definition hash_output (ph st : option (list byte)) : list byte :=
  until_nul (drop offsetof_output (hash_answer ph st).2).

(** The memory [wrap_crypt_r] has after the call of the library, with
    the scratch object [b]. *)
Definition after_crypt_r (phrase setting : ptr) (b : block)
    (r : option nat * list byte) (m : mem) : mem :=
  log_call (call_crypt_r phrase setting (Ptr b 0))
    (with_object b (Object Automatic true r.2) m).

(** The pointer [wrap_crypt_gensalt_rn] passes on as the prefix, and
    the string the library reads there, for a caller's prefix holding
    the string [s]. *)
Definition prefix_passed (prefix : ptr) (s : list byte) : ptr :=
  if decide (length s = 0) then NULL else prefix.

Definition prefix_read (s : list byte) : option (list byte) :=
  if decide (length s = 0) then None else Some s.

(** What the local array [b] of [wrap_crypt_gensalt_rn] holds before
    the library writes it. *)
Definition fresh_buf (m : mem) (b : block) : list byte :=
  indeterminate m b <$> seq 0 CRYPT_GENSALT_OUTPUT_SIZE.

(** The answer of the library to the call [wrap_crypt_gensalt_rn] makes
    on the memory [m] with the prefix string [pf]. *)
Definition gensalt_answer (pf : option (list byte)) (m : mem)
    : option nat * list byte * list byte :=
  lib_crypt_gensalt_rn (entropy m) pf 0 None 0
    (fresh_buf m (next_block m)) (Z.of_nat CRYPT_GENSALT_OUTPUT_SIZE).

(** The window of the output buffer after that call. *)
Definition gensalt_window (pf : option (list byte)) (m : mem) : list byte :=
  take CRYPT_GENSALT_OUTPUT_SIZE (gensalt_answer pf m).1.2.

Definition after_crypt_gensalt_rn (prefix : ptr) (s : list byte) (m : mem) : mem :=
  log_call (call_crypt_gensalt_rn (prefix_passed prefix s) 0 NULL 0
              (Ptr (next_block m) 0) (Z.of_nat CRYPT_GENSALT_OUTPUT_SIZE))
    (set_entropy (gensalt_answer (prefix_read s) m).2
       (with_object (next_block m)
          (Object Automatic true (gensalt_answer (prefix_read s) m).1.2) m)).
End Answers.

(** A call of the shim that used the local object [scratch] and returned
    [r] is scoped to the call when: the objects of the caller are as they
    were; the only object alive in addition is the one returned; the
    local object is new and its lifetime has ended; what is returned is
    a new block from [malloc], not the local object, that the caller can
    read. *)
Definition call_scoped (m : mem) (scratch r : ptr) (m' : mem) : Prop :=
  unchanged m m' ∧
  (∀ b, live m' b ↔ live m b ∨ r = Ptr b 0) ∧
  (∃ sb d, scratch = Ptr sb 0 ∧ (sb ∉ dom (objects m)) ∧
           objects m' !! sb = Some (Object Automatic false d)) ∧
  (∀ b ofs, r = Ptr b ofs →
     ofs = 0 ∧ (b ∉ dom (objects m)) ∧ r ≠ scratch ∧
     (∃ bytes, objects m' !! b = Some (Object Allocated true bytes)) ∧
     is_Some (text m' r)).

(** The text the caller reads behind [r], when there is one, is the
    string that [read] finds in the bytes the scratch object was left
    with. *)
Definition copy_of_scratch (m' : mem) (scratch r : ptr)
    (read : list byte → list byte) : Prop :=
  ∀ t, text m' r = Some t →
    ∃ sb, scratch = Ptr sb 0 ∧ t = read (bytes_of m' sb).

(** The pointer and the memory a defined run yields. *)
Definition result_ptr (run : option (ptr * mem)) : ptr :=
  match run with Some (r, _) => r | None => NULL end.

Definition result_mem (run : option (ptr * mem)) (m : mem) : mem :=
  match run with Some (_, m') => m' | None => m end.

Section Readings.
Context `{Libcrypt}.

(** The reading of the salt copy as a copy of the whole window: the
    object returned holds the [CRYPT_GENSALT_OUTPUT_SIZE] bytes of the
    output buffer, followed by its terminator. *)
Definition fixed_window_copy (prefix : ptr) (m : mem) : Prop :=
  ∀ r m' b arg buf,
    wrap_crypt_gensalt_rn prefix m = Some (r, m') →
    r = Ptr b 0 →
    last (calls m') =
      Some (call_crypt_gensalt_rn arg 0 NULL 0 (Ptr buf 0)
              (Z.of_nat CRYPT_GENSALT_OUTPUT_SIZE)) →
    ∃ copy,
      bytes_of m' b = copy ++ [NUL] ∧
      copy = take CRYPT_GENSALT_OUTPUT_SIZE (bytes_of m' buf) ∧
      length copy = CRYPT_GENSALT_OUTPUT_SIZE.

(** The reading of the error report as answering for the library
    alone: the shim returns [NULL] exactly when [crypt_r] did. *)
Definition error_iff_library_error (phrase setting : ptr) (m : mem) : Prop :=
  ∀ ph st r m',
    load_arg m phrase = Some ph →
    load_arg m setting = Some st →
    wrap_crypt_r phrase setting m = Some (r, m') →
    (r = NULL ↔ (lib_crypt_r ph st zeroed_data).1 = None).

(** The reading of determinism as holding of any two runs: on equal
    phrases and equal settings both fail or both return the same
    string. *)
Definition same_result (phrase1 setting1 : ptr) (m1 : mem)
    (phrase2 setting2 : ptr) (m2 : mem) : Prop :=
  ∀ r1 m1' r2 m2',
    load_arg m1 phrase1 = load_arg m2 phrase2 →
    load_arg m1 setting1 = load_arg m2 setting2 →
    wrap_crypt_r phrase1 setting1 m1 = Some (r1, m1') →
    wrap_crypt_r phrase2 setting2 m2 = Some (r2, m2') →
    (r1 = NULL ↔ r2 = NULL) ∧ text m1' r1 = text m2' r2.
End Readings.
(** ** A miniature libcrypt

    A small library with the interface of libcrypt, on which the shim can
    be run.  Settings start with [$]; the hash of a phrase is the setting,
    a [$] and the phrase reversed.  A salt is the prefix followed by four
    characters drawn from the entropy source; the default prefix is
    [$y$]. *)
Module Mini.

(** [data] with [new] written at its start. *)
Definition overwrite (data new : list byte) : list byte :=
  take (length data) (new ++ drop (length new) data).

Definition dollar : byte := Byte.x24.

Definition starts_with_dollar (l : list byte) : bool :=
  match l with
  | c :: _ => bool_decide (c = dollar)
  | [] => false
  end.

(** A header of the library built with or without the two features. *)
Definition header_with (default_prefix auto_entropy : bool) : CryptHeader := {|
  CRYPT_GENSALT_IMPLEMENTS_DEFAULT_PREFIX := default_prefix;
  CRYPT_GENSALT_IMPLEMENTS_AUTO_ENTROPY := auto_entropy;
  CRYPT_GENSALT_OUTPUT_SIZE := 192;
  sizeof_crypt_data := 1024;
  offsetof_output := 0;
  offsetof_output_le := Nat.le_0_l 1024;
|}.

#[export] Instance header : CryptHeader := header_with true true.

(** The token left in [data->output] when hashing fails. *)
Definition failure_token : list byte := list_byte_of_string "*0" ++ [NUL].

Definition mini_crypt_r (phrase setting : option (list byte)) (data : list byte)
    : option nat * list byte :=
  match phrase, setting with
  | Some ph, Some st =>
      let hash := st ++ [dollar] ++ rev ph ++ [NUL] in
      if starts_with_dollar st && bool_decide (length hash ≤ length data) then
        (Some 0, overwrite data hash)
      else (None, overwrite data failure_token)
  | _, _ => (None, overwrite data failure_token)
  end.

Definition salt_char (c : byte) : byte :=
  if is_nul c then Byte.x2e else c.

Definition mini_crypt_gensalt_rn (ent : list byte) (prefix : option (list byte))
    (count : Z) (rbytes : option (list byte)) (nrbytes : Z)
    (output : list byte) (output_size : Z)
    : option nat * list byte * list byte :=
  let pf := default (list_byte_of_string "$y$") prefix in
  let random := default ent rbytes in
  let salt := pf ++ (salt_char <$> take 4 random) ++ [NUL] in
  if starts_with_dollar pf && bool_decide (4 ≤ length random)
     && bool_decide (Z.of_nat (length salt) ≤ output_size)%Z
     && bool_decide (length salt ≤ length output) then
    (Some 0, overwrite output salt,
     match rbytes with None => drop 4 ent | Some _ => ent end)
  else (None, output, ent).

#[export] Program Instance lib : Libcrypt := {|
  lib_crypt_r := mini_crypt_r;
  lib_crypt_gensalt_rn := mini_crypt_gensalt_rn;
|}.
Next Obligation.
  intros phrase setting data. unfold mini_crypt_r, overwrite.
  repeat case_match; cbn [fst snd];
    rewrite length_take, length_app, length_drop; lia.
Qed.
Next Obligation.
  intros ent prefix count rbytes nrbytes output size.
  unfold mini_crypt_gensalt_rn, overwrite.
  case_match; cbn [fst snd]; [|reflexivity].
  rewrite length_take, length_app, length_drop; lia.
Qed.
Next Obligation.
  intros phrase setting data Hlen. unfold mini_crypt_r. simpl.
  destruct phrase as [ph|], setting as [st|]; simpl; try congruence.
  destruct (starts_with_dollar st && _) eqn:Hok; simpl; [|congruence].
  intros _. apply andb_true_iff in Hok as [_ Hfit].
  apply bool_decide_eq_true in Hfit.
  unfold overwrite. rewrite take_ge, drop_0
    by (rewrite length_app, length_drop; lia).
  unfold has_nul. rewrite !existsb_app.
  change (dollar :: rev ph ++ [NUL]) with ([dollar] ++ rev ph ++ [NUL]).
  rewrite !existsb_app. cbn [existsb is_nul]. change (Byte.eqb NUL NUL) with true.
  rewrite !orb_true_r. reflexivity.
Qed.

(** A memory holding the given strings, each terminated, in blocks
    [1], [2], ...; storage never written holds [junk], and [malloc]
    can provide [room] bytes. *)
Definition string_object (s : string) : object :=
  Object Allocated true (list_byte_of_string s ++ [NUL]).

Definition mem_of (strings : list string) (junk : byte) (ent : list byte)
    (room : nat) : mem :=
  Mem (list_to_map (zip (Pos.of_nat <$> seq 1 (length strings))
                        (string_object <$> strings)))
      (λ _ _, junk) ent [] room.

(** Two memories with the same four strings in different places and
    different leftovers in fresh storage. *)
Definition m0 : mem :=
  mem_of ["correct horse"; "$6$salt"; ""; "$6$"]%string Byte.x78
    (list_byte_of_string "abcdefgh") 4096.

(** [m0] with a heap that has nothing left to give. *)
Definition m0_exhausted : mem := set_heap_room 0 m0.

Definition m0_moved : mem :=
  mem_of ["$6$"; ""; "$6$salt"; "padding"; "correct horse"]%string Byte.x2a
    (list_byte_of_string "stuvwxyz") 4096.

End Mini.

(** * Properties *)

(** ** Strings *)

Lemma until_nul_no_nul (l : list byte) : has_nul (until_nul l) = false.
Proof.
  induction l as [|c l IH]; simpl; [reflexivity|].
  destruct (is_nul c) eqn:Hc; simpl; [reflexivity|].
  rewrite Hc. exact IH.
Qed.

Lemma until_nul_length (l : list byte) : length (until_nul l) ≤ length l.
Proof.
  induction l as [|c l IH]; simpl; [lia|].
  destruct (is_nul c); simpl; lia.
Qed.

Lemma until_nul_id (l : list byte) : has_nul l = false → until_nul l = l.
Proof.
  induction l as [|c l IH]; simpl; [reflexivity|].
  destruct (is_nul c); simpl; [discriminate|].
  intros Hl. f_equal. apply IH, Hl.
Qed.

Lemma until_nul_shorter (l : list byte) :
  has_nul l = true → length (until_nul l) < length l.
Proof.
  induction l as [|c l IH]; simpl; [discriminate|].
  destruct (is_nul c); simpl; [lia|].
  intros Hl. apply IH in Hl. lia.
Qed.

Lemma until_nul_app_nul (s k : list byte) :
  has_nul s = false → until_nul (s ++ NUL :: k) = s.
Proof.
  induction s as [|c s IH]; simpl; [reflexivity|].
  destruct (is_nul c); simpl; [discriminate|].
  intros Hs. f_equal. apply IH, Hs.
Qed.

Lemma length_zero_iff_nil (s : list byte) : length s = 0 ↔ s = [].
Proof. destruct s; simpl; split; congruence. Qed.

Lemma has_nul_app (l k : list byte) : has_nul (l ++ k) = has_nul l || has_nul k.
Proof. apply existsb_app. Qed.

(** ** Memory *)

Lemma fresh_block_unused (m : mem) : objects m !! fresh (dom (objects m)) = None.
Proof. apply not_elem_of_dom, is_fresh. Qed.

Lemma live_bytes_with_object_eq b o m :
  live_bytes (with_object b o m) b = if obj_live o then Some (obj_bytes o) else None.
Proof. unfold live_bytes. simpl. rewrite lookup_insert_eq. reflexivity. Qed.

Lemma live_bytes_with_object_ne b b' o m :
  b ≠ b' → live_bytes (with_object b o m) b' = live_bytes m b'.
Proof. intros Hne. unfold live_bytes. simpl. rewrite lookup_insert_ne by exact Hne. reflexivity. Qed.

(** Writing an object that [p] does not point into leaves what is read
    at [p]. *)
Lemma load_with_object_ne b o m b' ofs :
  b ≠ b' → load (with_object b o m) (Ptr b' ofs) = load m (Ptr b' ofs).
Proof. intros Hne. unfold load. rewrite live_bytes_with_object_ne by exact Hne. reflexivity. Qed.

Lemma load_with_object_eq b s l m ofs :
  ofs ≤ length l → load (with_object b (Object s true l) m) (Ptr b ofs) = Some (drop ofs l).
Proof.
  intros Hofs. unfold load. rewrite live_bytes_with_object_eq. simpl.
  rewrite decide_True by exact Hofs. reflexivity.
Qed.

Lemma load_Some_in_dom m b ofs l : load m (Ptr b ofs) = Some l → is_Some (objects m !! b).
Proof.
  unfold load, live_bytes. destruct (objects m !! b); [eauto|discriminate].
Qed.

Lemma load_with_object_unused b o m p l :
  objects m !! b = None → load m p = Some l → load (with_object b o m) p = Some l.
Proof.
  intros Hb Hl. destruct p as [|b' ofs]; [discriminate|].
  rewrite load_with_object_ne; [exact Hl|].
  intros ->. apply load_Some_in_dom in Hl as [o' Ho']. congruence.
Qed.

Lemma load_cstring_with_object_unused b o m p s :
  objects m !! b = None → load_cstring m p = Some s →
  load_cstring (with_object b o m) p = Some s.
Proof.
  intros Hb. unfold load_cstring. destruct (load m p) as [l|] eqn:Hl; [|discriminate].
  rewrite (load_with_object_unused _ _ _ _ _ Hb Hl). trivial.
Qed.

Lemma load_arg_with_object_unused b o m p x :
  objects m !! b = None → load_arg m p = Some x → load_arg (with_object b o m) p = Some x.
Proof.
  intros Hb. destruct p as [|b' ofs]; simpl; [trivial|].
  destruct (load_cstring m (Ptr b' ofs)) as [s|] eqn:Hs; simpl; [|discriminate].
  rewrite (load_cstring_with_object_unused _ _ _ _ _ Hb Hs). trivial.
Qed.

Lemma with_object_twice b o o' m : with_object b o' (with_object b o m) = with_object b o' m.
Proof. unfold with_object, set_objects. simpl. rewrite insert_insert_eq. reflexivity. Qed.

(** ** Running the primitives *)

Lemma bind_run {A B} (c : M A) (f : A → M B) (m : mem) :
  (c ≫= f) m = match c m with Some (a, m') => f a m' | None => None end.
Proof. reflexivity. Qed.

Lemma ret_run {A} (a : A) (m : mem) : (mret a : M A) m = Some (a, m).
Proof. reflexivity. Qed.

Lemma alloc_run s n m :
  alloc s n m =
  Some (Ptr (fresh (dom (objects m))) 0,
        with_object (fresh (dom (objects m)))
          (Object s true (indeterminate m (fresh (dom (objects m))) <$> seq 0 n)) m).
Proof. reflexivity. Qed.

(** Overwriting a whole live object. *)
Lemma store_whole b s old new m :
  length new = length old →
  store (Ptr b 0) new (with_object b (Object s true old) m)
  = Some ((), with_object b (Object s true new) m).
Proof.
  intros Hlen. unfold store. simpl. rewrite lookup_insert_eq. simpl.
  rewrite bool_decide_eq_true_2 by lia.
  unfold splice. simpl. rewrite Hlen, drop_all, app_nil_r.
  fold (with_object b (Object s true new) (with_object b (Object s true old) m)).
  rewrite with_object_twice. reflexivity.
Qed.

Lemma new_string_run str m :
  new_string str m =
  if can_copy str m then
    Some (Ptr (fresh (dom (objects m))) 0,
          with_object (fresh (dom (objects m))) (Object Allocated true (str ++ [NUL]))
            (set_heap_room (heap_room m - (length str + 1)) m))
  else Some (NULL, m).
Proof.
  unfold new_string, malloc, can_copy. rewrite bind_run.
  destruct (decide (length str + 1 ≤ heap_room m)) as [Hroom|Hroom].
  - rewrite bool_decide_eq_true_2 by exact Hroom.
    rewrite alloc_run. cbn [is_null]. rewrite bind_run.
    change (objects (set_heap_room ?n ?m)) with (objects m).
    change (indeterminate (set_heap_room ?n ?m)) with (indeterminate m).
    rewrite store_whole; [reflexivity|].
    rewrite length_fmap, length_seq, length_app. reflexivity.
  - rewrite bool_decide_eq_false_2 by exact Hroom. reflexivity.
Qed.

Lemma release_run b s l m :
  objects m !! b = Some (Object s true l) →
  release (Ptr b 0) m = Some ((), with_object b (Object s false l) m).
Proof. intros Hb. unfold release. rewrite Hb. reflexivity. Qed.

Lemma get_run {A} (f : mem → option A) m a : f m = Some a → get f m = Some (a, m).
Proof. intros Hf. unfold get. rewrite Hf. reflexivity. Qed.

(** ** Running the shim *)

Section Run.
Context `{Libcrypt}.

Lemma crypt_r_run phrase setting b s d m ph st :
  objects m !! b = None →
  length d = sizeof_crypt_data →
  load_arg m phrase = Some ph →
  load_arg m setting = Some st →
  crypt_r phrase setting (Ptr b 0) (with_object b (Object s true d) m)
  = Some (match (lib_crypt_r ph st d).1 with
          | None => NULL
          | Some o => Ptr b o
          end,
          log_call (call_crypt_r phrase setting (Ptr b 0))
            (with_object b (Object s true (lib_crypt_r ph st d).2) m)).
Proof.
  intros Hb Hd Hph Hst. unfold crypt_r.
  rewrite bind_run, (get_run _ _ ph)
    by (apply load_arg_with_object_unused; assumption).
  rewrite bind_run, (get_run _ _ st)
    by (apply load_arg_with_object_unused; assumption).
  rewrite bind_run, (get_run _ _ d); cycle 1.
  { unfold load_array. rewrite load_with_object_eq by lia.
    rewrite drop_0, decide_True by lia.
    rewrite take_ge by lia. reflexivity. }
  cbv zeta. rewrite bind_run, store_whole by apply lib_crypt_r_length.
  reflexivity.
Qed.

Lemma wrap_crypt_r_run phrase setting m ph st :
  load_arg m phrase = Some ph →
  load_arg m setting = Some st →
  let b := next_block m in
  let r := hash_answer ph st in
  let m1 := after_crypt_r phrase setting b r m in
  wrap_crypt_r phrase setting m
  = match r.1 with
    | None => Some (NULL, with_object b (Object Automatic false r.2) m1)
    | Some _ =>
        if can_copy (hash_output ph st) m then
          Some (Ptr (next_block m1) 0,
                with_object b (Object Automatic false r.2)
                  (with_object (next_block m1)
                     (Object Allocated true (hash_output ph st ++ [NUL]))
                     (set_heap_room
                        (heap_room m - (length (hash_output ph st) + 1)) m1)))
        else Some (NULL, with_object b (Object Automatic false r.2) m1)
    end.
Proof.
  intros Hph Hst b r m1.
  pose proof (fresh_block_unused m) as Hb. fold (next_block m) in Hb. fold b in Hb.
  unfold wrap_crypt_r, with_local.
  rewrite bind_run, alloc_run. fold (next_block m). fold b.
  rewrite bind_run. unfold memset at 1.
  rewrite !bind_run, store_whole
    by (rewrite length_replicate, length_fmap, length_seq; reflexivity).
  rewrite ret_run.
  rewrite bind_run, (crypt_r_run _ _ _ _ _ _ ph st)
    by first [assumption | apply length_replicate].
  fold zeroed_data. fold (hash_answer ph st). fold r.
  fold (after_crypt_r phrase setting b r m). fold m1.
  assert (Hlen : length r.2 = sizeof_crypt_data).
  { unfold r, hash_answer. rewrite lib_crypt_r_length. apply length_replicate. }
  destruct r.1 as [o|] eqn:Hr; cbn [is_null].
  - unfold strdup. rewrite bind_run.
    assert (Hout : has_nul (drop offsetof_output r.2) = true).
    { apply lib_crypt_r_output; [apply length_replicate|].
      fold zeroed_data. fold (hash_answer ph st). fold r. rewrite Hr. discriminate. }
    rewrite (get_run _ _ (until_nul (drop offsetof_output r.2))); cycle 1.
    { unfold load_cstring, m1, after_crypt_r. simpl ptr_add.
      change (load (log_call ?c ?m) ?p) with (load m p).
      rewrite load_with_object_eq by (rewrite Hlen; apply offsetof_output_le).
      rewrite Hout. reflexivity. }
    rewrite new_string_run. fold (next_block m1).
    change (until_nul (drop offsetof_output r.2)) with (hash_output ph st).
    change (can_copy ?s m1) with (can_copy s m).
    change (heap_room m1) with (heap_room m).
    assert (Hne : next_block m1 ≠ b).
    { intros Heq. pose proof (fresh_block_unused m1) as Hfresh.
      fold (next_block m1) in Hfresh. rewrite Heq in Hfresh.
      unfold m1, after_crypt_r in Hfresh.
      simpl in Hfresh. rewrite lookup_insert_eq in Hfresh. discriminate. }
    destruct (can_copy (hash_output ph st) m).
    + cbv beta iota. rewrite bind_run, (release_run b Automatic r.2); [reflexivity|].
      simpl. rewrite lookup_insert_ne by exact Hne.
      apply lookup_insert_eq.
    + cbv beta iota. rewrite bind_run, (release_run b Automatic r.2); [reflexivity|].
      simpl. apply lookup_insert_eq.
  - rewrite ret_run, bind_run, (release_run b Automatic r.2); [reflexivity|].
    simpl. apply lookup_insert_eq.
Qed.
End Run.

Section RunGensalt.
Context `{Libcrypt}.

Lemma crypt_gensalt_rn_run prefix b s out m pf :
  objects m !! b = None →
  length out = CRYPT_GENSALT_OUTPUT_SIZE →
  load_arg m prefix = Some pf →
  let size := Z.of_nat CRYPT_GENSALT_OUTPUT_SIZE in
  let r := lib_crypt_gensalt_rn (entropy m) pf 0 None 0 out size in
  crypt_gensalt_rn prefix 0 NULL 0 (Ptr b 0) size
    (with_object b (Object s true out) m)
  = Some (match r.1.1 with
          | None => NULL
          | Some o => Ptr b o
          end,
          log_call (call_crypt_gensalt_rn prefix 0 NULL 0 (Ptr b 0) size)
            (set_entropy r.2 (with_object b (Object s true r.1.2) m))).
Proof.
  intros Hb Hout Hpf size r. unfold crypt_gensalt_rn.
  rewrite bind_run, (get_run _ _ pf)
    by (apply load_arg_with_object_unused; assumption).
  rewrite bind_run, (get_run _ _ None) by reflexivity.
  rewrite bind_run, (get_run _ _ out); cycle 1.
  { unfold load_array, size. rewrite Nat2Z.id.
    rewrite load_with_object_eq by lia.
    rewrite drop_0, decide_True by lia.
    rewrite take_ge by lia. reflexivity. }
  rewrite bind_run, (get_run _ _ (entropy m)) by reflexivity.
  cbv zeta. fold size. fold r.
  rewrite bind_run, store_whole
    by (unfold r; apply lib_crypt_gensalt_rn_length).
  reflexivity.
Qed.

Lemma wrap_crypt_gensalt_rn_run prefix m s :
  load_cstring m prefix = Some s →
  let b := next_block m in
  let r := gensalt_answer (prefix_read s) m in
  let m1 := after_crypt_gensalt_rn prefix s m in
  wrap_crypt_gensalt_rn prefix m
  = match r.1.1 with
    | None => Some (NULL, with_object b (Object Automatic false r.1.2) m1)
    | Some _ =>
        if can_copy (until_nul (gensalt_window (prefix_read s) m)) m then
          Some (Ptr (next_block m1) 0,
                with_object b (Object Automatic false r.1.2)
                  (with_object (next_block m1)
                     (Object Allocated true
                        (until_nul (gensalt_window (prefix_read s) m) ++ [NUL]))
                     (set_heap_room
                        (heap_room m -
                         (length (until_nul (gensalt_window (prefix_read s) m)) + 1))
                        m1)))
        else Some (NULL, with_object b (Object Automatic false r.1.2) m1)
    end.
Proof.
  intros Hs b r m1. subst b.
  pose proof (fresh_block_unused m) as Hb. fold (next_block m) in Hb.
  unfold wrap_crypt_gensalt_rn, strlen.
  rewrite bind_run, (get_run _ _ (length s)) by (rewrite Hs; reflexivity).
  cbv zeta. fold (prefix_passed prefix s). unfold with_local.
  rewrite bind_run, alloc_run. fold (next_block m).
  rewrite !bind_run.
  rewrite (crypt_gensalt_rn_run _ _ _ _ _ (prefix_read s)); cycle 1.
  { exact Hb. }
  { rewrite length_fmap, length_seq. reflexivity. }
  { unfold prefix_passed, prefix_read. destruct (decide (length s = 0)).
    - reflexivity.
    - destruct prefix; [discriminate|]. simpl. rewrite Hs. reflexivity. }
  cbv zeta. fold (fresh_buf m (next_block m)).
  fold (gensalt_answer (prefix_read s) m). fold r.
  fold (after_crypt_gensalt_rn prefix s m). fold m1.
  assert (Hlen : length r.1.2 = CRYPT_GENSALT_OUTPUT_SIZE).
  { unfold r, gensalt_answer, fresh_buf. rewrite lib_crypt_gensalt_rn_length.
    rewrite length_fmap, length_seq. reflexivity. }
  destruct r.1.1 as [o|] eqn:Hr; cbn [is_null].
  - unfold strndup. rewrite bind_run.
    rewrite (get_run _ _ (until_nul (gensalt_window (prefix_read s) m))); cycle 1.
    { unfold load_bounded, m1, after_crypt_gensalt_rn.
      change (load (log_call ?c (set_entropy ?e ?m)) ?p) with (load m p).
      rewrite load_with_object_eq by lia. rewrite drop_0.
      rewrite (bool_decide_eq_true_2 (_ ≤ _)) by (fold r; lia).
      rewrite orb_true_r. reflexivity. }
    rewrite new_string_run. fold (next_block m1).
    change (can_copy ?s _) with (can_copy s m).
    assert (Hne : next_block m1 ≠ next_block m).
    { intros Heq. pose proof (fresh_block_unused m1) as Hfresh.
      fold (next_block m1) in Hfresh. rewrite Heq in Hfresh.
      unfold m1, after_crypt_gensalt_rn in Hfresh.
      simpl in Hfresh. rewrite lookup_insert_eq in Hfresh. discriminate. }
    destruct (can_copy (until_nul (gensalt_window (prefix_read s) m)) m).
    + cbv beta iota. rewrite bind_run, (release_run (next_block m) Automatic r.1.2); [reflexivity|].
      simpl. rewrite lookup_insert_ne by exact Hne.
      apply lookup_insert_eq.
    + cbv beta iota. rewrite bind_run, (release_run (next_block m) Automatic r.1.2); [reflexivity|].
      simpl. apply lookup_insert_eq.
  - rewrite ret_run, bind_run, (release_run (next_block m) Automatic r.1.2);
      [reflexivity|].
    simpl. apply lookup_insert_eq.
Qed.

(** [strlen] is applied to the prefix first: without a string there,
    the behaviour is undefined. *)
Lemma wrap_crypt_gensalt_rn_undefined prefix m :
  load_cstring m prefix = None → wrap_crypt_gensalt_rn prefix m = None.
Proof.
  intros Hs. unfold wrap_crypt_gensalt_rn, strlen.
  rewrite bind_run. unfold get. rewrite Hs. reflexivity.
Qed.
End RunGensalt.

(** ** The outcome of a call of the shim *)

Lemma outcome_scratch_new m scratch d str ok r m' :
  outcome m scratch d str ok r m' → objects m !! scratch = None.
Proof. intros [Hnew _]. exact Hnew. Qed.

Lemma outcome_scratch_released m scratch d str ok r m' :
  outcome m scratch d str ok r m' →
  objects m' !! scratch = Some (Object Automatic false d).
Proof.
  intros [_ Hcase]. destruct ok.
  - destruct Hcase as (b' & _ & _ & _ & ->). apply lookup_insert_eq.
  - destruct Hcase as [_ ->]. apply lookup_insert_eq.
Qed.

Lemma outcome_null_iff m scratch d str ok r m' :
  outcome m scratch d str ok r m' → r = NULL ↔ ok = false.
Proof.
  intros [_ Hcase]. destruct ok.
  - destruct Hcase as (b' & _ & _ & -> & _). split; discriminate.
  - destruct Hcase as [-> _]. split; reflexivity.
Qed.

Lemma outcome_result m scratch d str ok r m' b' ofs :
  outcome m scratch d str ok r m' →
  r = Ptr b' ofs →
  ofs = 0 ∧ b' ≠ scratch ∧ objects m !! b' = None ∧
  objects m' !! b' = Some (Object Allocated true (str ++ [NUL])).
Proof.
  intros [_ Hcase] ->. destruct ok.
  - destruct Hcase as (b'' & Hne & Hnew & [= <- ->] & ->).
    repeat split; [exact Hne | exact Hnew |].
    rewrite lookup_insert_ne by congruence. apply lookup_insert_eq.
  - destruct Hcase as [[=] _].
Qed.

(** Objects that existed before the call are as they were. *)
Lemma outcome_unchanged m scratch d str ok r m' :
  outcome m scratch d str ok r m' → unchanged m m'.
Proof.
  intros [Hscratch Hcase] b [o Ho]%elem_of_dom.
  assert (b ≠ scratch) by congruence.
  destruct ok.
  - destruct Hcase as (b' & _ & Hnew & _ & ->).
    assert (b ≠ b') by congruence.
    rewrite !lookup_insert_ne by congruence. reflexivity.
  - destruct Hcase as [_ ->].
    rewrite lookup_insert_ne by congruence. reflexivity.
Qed.

(** The live objects after the call are those live before it and the
    object returned. *)
Lemma outcome_live m scratch d str ok r m' b :
  outcome m scratch d str ok r m' → live m' b ↔ live m b ∨ r = Ptr b 0.
Proof.
  intros Hout. unfold live, live_bytes.
  destruct (decide (b = scratch)) as [->|Hscratch].
  - rewrite (outcome_scratch_released _ _ _ _ _ _ _ Hout),
      (outcome_scratch_new _ _ _ _ _ _ _ Hout). simpl. split.
    + intros [? [=]].
    + intros [[? [=]] | Hr].
      apply (outcome_result _ _ _ _ _ _ _ _ _ Hout) in Hr as (_ & ? & _). congruence.
  - destruct Hout as [Hnew Hcase]. destruct ok.
    + destruct Hcase as (b' & Hne & Hnew' & -> & ->).
      rewrite lookup_insert_ne by congruence.
      destruct (decide (b = b')) as [->|Hb'].
      * rewrite lookup_insert_eq, Hnew'. simpl. split; [intros _; right; reflexivity | eauto].
      * rewrite lookup_insert_ne by congruence. split; [intros ?; left; assumption|].
        intros [?|[=]]; [assumption | congruence].
    + destruct Hcase as [-> ->].
      rewrite lookup_insert_ne by congruence.
      split; [intros ?; left; assumption|]. intros [?|[=]]; assumption.
Qed.

(** What the caller reads behind the pointer returned. *)
Lemma outcome_text m scratch d str ok r m' :
  outcome m scratch d str ok r m' →
  has_nul str = false → text m' r = if ok then Some str else None.
Proof.
  intros Hout Hstr. unfold text, load_cstring.
  destruct r as [|b' ofs] eqn:Hr.
  - apply outcome_null_iff in Hout as [-> _]; reflexivity.
  - destruct (outcome_result _ _ _ _ _ _ _ _ _ Hout eq_refl) as (-> & _ & _ & Hb').
    assert (ok = true) as ->.
    { destruct ok; [reflexivity|].
      apply outcome_null_iff in Hout as [_ Hnull]. discriminate (Hnull eq_refl). }
    unfold load, live_bytes. rewrite Hb'. cbn [obj_live obj_bytes].
    rewrite decide_True, drop_0 by lia.
    rewrite has_nul_app, orb_true_r.
    rewrite (until_nul_app_nul str []) by exact Hstr. reflexivity.
Qed.

(** ** The two wrappers, summarised *)

Section Summary.
Context `{Libcrypt}.

Lemma outcome_of_run m b live_bytes d str r m1 m' :
  objects m !! b = None →
  objects m1 = <[b := Object Automatic true live_bytes]> (objects m) →
  (r = NULL ∧ objects m' = <[b := Object Automatic false d]> (objects m1)) ∨
  (r = Ptr (next_block m1) 0 ∧
   objects m' = <[b := Object Automatic false d]>
                  (<[next_block m1 := Object Allocated true (str ++ [NUL])]>
                     (objects m1))) →
  outcome m b d str (negb (is_null r)) r m'.
Proof.
  intros Hb Hm1 [[-> Hm'] | [-> Hm']]; (split; [exact Hb|]); simpl; rewrite Hm'.
  - split; [reflexivity|]. rewrite Hm1. apply insert_insert_eq.
  - pose proof (fresh_block_unused m1) as Hfresh.
    fold (next_block m1) in Hfresh. rewrite Hm1 in Hfresh.
    apply lookup_insert_None in Hfresh as [Hnew Hne].
    exists (next_block m1). repeat split; [congruence | exact Hnew |].
    rewrite Hm1, (insert_insert_ne _ (next_block m1) b) by congruence.
    apply insert_insert_eq.
Qed.

Lemma wrap_crypt_r_outcome m phrase setting ph st :
  load_arg m phrase = Some ph →
  load_arg m setting = Some st →
  ∃ r m',
    wrap_crypt_r phrase setting m = Some (r, m') ∧
    outcome m (next_block m) (hash_answer ph st).2 (hash_output ph st)
      (succeeded (hash_answer ph st).1 && can_copy (hash_output ph st) m) r m' ∧
    calls m' = calls m ++ [call_crypt_r phrase setting (Ptr (next_block m) 0)] ∧
    entropy m' = entropy m.
Proof.
  intros Hph Hst. rewrite (wrap_crypt_r_run _ _ _ ph st Hph Hst).
  pose proof (fresh_block_unused m) as Hb. fold (next_block m) in Hb.
  destruct (hash_answer ph st).1 as [o|];
    [destruct (can_copy (hash_output ph st) m)|]; eexists _, _;
    (split; [reflexivity|]); (split; [|split; reflexivity]).
  - apply (outcome_of_run m _ (hash_answer ph st).2 _ _ (Ptr _ 0)
             (after_crypt_r phrase setting (next_block m) (hash_answer ph st) m));
      [exact Hb | reflexivity | right; split; reflexivity].
  - apply (outcome_of_run m _ (hash_answer ph st).2 _ _ NULL
             (after_crypt_r phrase setting (next_block m) (hash_answer ph st) m));
      [exact Hb | reflexivity | left; split; reflexivity].
  - apply (outcome_of_run m _ (hash_answer ph st).2 _ _ NULL
             (after_crypt_r phrase setting (next_block m) (hash_answer ph st) m));
      [exact Hb | reflexivity | left; split; reflexivity].
Qed.

Lemma wrap_crypt_gensalt_rn_outcome m prefix s :
  load_cstring m prefix = Some s →
  ∃ r m',
    wrap_crypt_gensalt_rn prefix m = Some (r, m') ∧
    outcome m (next_block m) (gensalt_answer (prefix_read s) m).1.2
      (until_nul (gensalt_window (prefix_read s) m))
      (succeeded (gensalt_answer (prefix_read s) m).1.1
       && can_copy (until_nul (gensalt_window (prefix_read s) m)) m) r m' ∧
    calls m' = calls m ++
      [call_crypt_gensalt_rn (prefix_passed prefix s) 0 NULL 0
         (Ptr (next_block m) 0) (Z.of_nat CRYPT_GENSALT_OUTPUT_SIZE)] ∧
    entropy m' = (gensalt_answer (prefix_read s) m).2.
Proof.
  intros Hs. rewrite (wrap_crypt_gensalt_rn_run _ _ s Hs).
  pose proof (fresh_block_unused m) as Hb. fold (next_block m) in Hb.
  destruct (gensalt_answer (prefix_read s) m).1.1 as [o|];
    [destruct (can_copy (until_nul (gensalt_window (prefix_read s) m)) m)|];
    eexists _, _;
    (split; [reflexivity|]); (split; [|split; reflexivity]).
  - apply (outcome_of_run m _ (gensalt_answer (prefix_read s) m).1.2 _ _ (Ptr _ 0)
             (after_crypt_gensalt_rn prefix s m));
      [exact Hb | reflexivity | right; split; reflexivity].
  - apply (outcome_of_run m _ (gensalt_answer (prefix_read s) m).1.2 _ _ NULL
             (after_crypt_gensalt_rn prefix s m));
      [exact Hb | reflexivity | left; split; reflexivity].
  - apply (outcome_of_run m _ (gensalt_answer (prefix_read s) m).1.2 _ _ NULL
             (after_crypt_gensalt_rn prefix s m));
      [exact Hb | reflexivity | left; split; reflexivity].
Qed.

Lemma gensalt_window_length pf m :
  length (gensalt_window pf m) = CRYPT_GENSALT_OUTPUT_SIZE.
Proof.
  unfold gensalt_window, gensalt_answer, fresh_buf.
  rewrite length_take, lib_crypt_gensalt_rn_length, length_fmap, length_seq. lia.
Qed.

Lemma gensalt_window_whole pf m : gensalt_window pf m = (gensalt_answer pf m).1.2.
Proof.
  unfold gensalt_window. apply take_ge.
  unfold gensalt_answer, fresh_buf.
  rewrite lib_crypt_gensalt_rn_length, length_fmap, length_seq. lia.
Qed.
End Summary.

(** ** Reading through an unchanged memory *)

Lemma load_unchanged m m' p l : unchanged m m' → load m p = Some l → load m' p = Some l.
Proof.
  intros Hun Hl. destruct p as [|b ofs]; [discriminate|].
  pose proof (load_Some_in_dom _ _ _ _ Hl) as Hb%elem_of_dom.
  unfold load, live_bytes in *. rewrite (Hun b Hb). exact Hl.
Qed.

Lemma load_cstring_unchanged m m' p s :
  unchanged m m' → load_cstring m p = Some s → load_cstring m' p = Some s.
Proof.
  intros Hun. unfold load_cstring.
  destruct (load m p) as [l|] eqn:Hl; [|discriminate].
  rewrite (load_unchanged _ _ _ _ Hun Hl). trivial.
Qed.

Lemma load_arg_unchanged m m' p x :
  unchanged m m' → load_arg m p = Some x → load_arg m' p = Some x.
Proof.
  intros Hun. destruct p as [|b ofs]; simpl; [trivial|].
  destruct (load_cstring m (Ptr b ofs)) as [s|] eqn:Hs; simpl; [|discriminate].
  rewrite (load_cstring_unchanged _ _ _ _ Hun Hs). trivial.
Qed.

Lemma copied_false (ret : option nat) (room : bool) :
  succeeded ret && room = false ↔ ret = None ∨ room = false.
Proof. destruct ret, room; simpl; split; intros; try tauto; auto; destruct H; congruence. Qed.

(** A pointer that is returned and is not [NULL] points to the copy. *)
Lemma outcome_returned m scratch d str ok r m' :
  outcome m scratch d str ok r m' →
  has_nul str = false →
  r ≠ NULL →
  ∃ b,
    r = Ptr b 0 ∧ b ≠ scratch ∧ objects m !! b = None ∧
    objects m' !! b = Some (Object Allocated true (str ++ [NUL])) ∧
    text m' r = Some str ∧ ok = true.
Proof.
  intros Hout Hstr Hr. destruct r as [|b ofs]; [contradiction|].
  destruct (outcome_result _ _ _ _ _ _ _ _ _ Hout eq_refl) as (-> & Hne & Hnew & Hb).
  assert (Hok : ok = true).
  { destruct ok; [reflexivity|].
    apply outcome_null_iff in Hout as [_ Hnull]. discriminate (Hnull eq_refl). }
  exists b. repeat split; try assumption.
  rewrite (outcome_text _ _ _ _ _ _ _ Hout Hstr), Hok. reflexivity.
Qed.

Lemma outcome_call_scoped m scratch d str ok r m' :
  outcome m scratch d str ok r m' →
  has_nul str = false →
  call_scoped m (Ptr scratch 0) r m'.
Proof.
  intros Hout Hstr. split; [|split; [|split]].
  - eapply outcome_unchanged, Hout.
  - intros b. eapply outcome_live, Hout.
  - exists scratch, d. split; [reflexivity|]. split.
    + apply not_elem_of_dom. eapply outcome_scratch_new, Hout.
    + eapply outcome_scratch_released, Hout.
  - intros b ofs Hr.
    destruct (outcome_result _ _ _ _ _ _ _ _ _ Hout Hr) as (Hofs & Hne & Hnew & Hb).
    split; [exact Hofs|]. split; [apply not_elem_of_dom, Hnew|].
    split; [rewrite Hr; congruence|]. split; [eauto|].
    rewrite (outcome_text _ _ _ _ _ _ _ Hout Hstr).
    destruct ok; [eauto|].
    apply outcome_null_iff in Hout as [_ Hnull].
    rewrite Hnull in Hr; [discriminate|reflexivity].
Qed.

Lemma outcome_copy_of_scratch m scratch d str ok r m' read :
  outcome m scratch d str ok r m' →
  has_nul str = false →
  str = read d →
  copy_of_scratch m' (Ptr scratch 0) r read.
Proof.
  intros Hout Hstr Hread t Ht. exists scratch. split; [reflexivity|].
  unfold bytes_of. rewrite (outcome_scratch_released _ _ _ _ _ _ _ Hout).
  rewrite (outcome_text _ _ _ _ _ _ _ Hout Hstr) in Ht.
  destruct ok; [|discriminate]. injection Ht as <-. exact Hread.
Qed.

(** * The capability probe *)

(** C3. [feature_test] returns [NULL] exactly when the header defines
    both [CRYPT_GENSALT_IMPLEMENTS_DEFAULT_PREFIX] and
    [CRYPT_GENSALT_IMPLEMENTS_AUTO_ENTROPY]; when one of them is not
    defined it returns a message that names a macro that is missing. *)
Theorem feature_test_null_iff `{CryptHeader} :
  (feature_test = None ↔
     CRYPT_GENSALT_IMPLEMENTS_DEFAULT_PREFIX = true ∧
     CRYPT_GENSALT_IMPLEMENTS_AUTO_ENTROPY = true) ∧
  (¬ (CRYPT_GENSALT_IMPLEMENTS_DEFAULT_PREFIX = true ∧
      CRYPT_GENSALT_IMPLEMENTS_AUTO_ENTROPY = true) →
   ∃ msg, feature_test = Some msg ∧
     ((CRYPT_GENSALT_IMPLEMENTS_DEFAULT_PREFIX = false ∧
       mentions msg "CRYPT_GENSALT_IMPLEMENTS_DEFAULT_PREFIX" = true) ∨
      (CRYPT_GENSALT_IMPLEMENTS_AUTO_ENTROPY = false ∧
       mentions msg "CRYPT_GENSALT_IMPLEMENTS_AUTO_ENTROPY" = true))).
Proof.
  unfold feature_test.
  destruct CRYPT_GENSALT_IMPLEMENTS_DEFAULT_PREFIX,
    CRYPT_GENSALT_IMPLEMENTS_AUTO_ENTROPY; cbn [negb]; split.
  - split; [intros _; split; reflexivity | reflexivity].
  - intros Hmissing. exfalso. apply Hmissing. split; reflexivity.
  - split; [discriminate | intros [_ [=]]].
  - intros _. eexists. split; [reflexivity|]. right. split; reflexivity.
  - split; [discriminate | intros [[=] _]].
  - intros _. eexists. split; [reflexivity|]. left. split; reflexivity.
  - split; [discriminate | intros [[=] _]].
  - intros _. eexists. split; [reflexivity|]. left. split; reflexivity.
Qed.

Lemma feature_test_null_iff_witness :
  ∃ msg, @feature_test (Mini.header_with true false) = Some msg ∧
    ((@CRYPT_GENSALT_IMPLEMENTS_DEFAULT_PREFIX (Mini.header_with true false) = false ∧
      mentions msg "CRYPT_GENSALT_IMPLEMENTS_DEFAULT_PREFIX" = true) ∨
     (@CRYPT_GENSALT_IMPLEMENTS_AUTO_ENTROPY (Mini.header_with true false) = false ∧
      mentions msg "CRYPT_GENSALT_IMPLEMENTS_AUTO_ENTROPY" = true)).
Proof.
  apply (proj2 (@feature_test_null_iff (Mini.header_with true false))).
  simpl. intros [_ Hflag]. discriminate Hflag.
Defined.

(** C9. The macros are tested in a fixed order: when
    [CRYPT_GENSALT_IMPLEMENTS_DEFAULT_PREFIX] is not defined the message
    is the one about the default prefix, whether or not
    [CRYPT_GENSALT_IMPLEMENTS_AUTO_ENTROPY] is defined; the message about
    auto entropy is returned exactly when the first macro is defined and
    the second is not. *)
Theorem feature_test_order `{CryptHeader} :
  (CRYPT_GENSALT_IMPLEMENTS_DEFAULT_PREFIX = false →
   feature_test =
     Some "libcrypt does not support CRYPT_GENSALT_IMPLEMENTS_DEFAULT_PREFIX"%string) ∧
  (feature_test =
     Some "libcrypt does not support CRYPT_GENSALT_IMPLEMENTS_AUTO_ENTROPY"%string ↔
   CRYPT_GENSALT_IMPLEMENTS_DEFAULT_PREFIX = true ∧
   CRYPT_GENSALT_IMPLEMENTS_AUTO_ENTROPY = false).
Proof.
  unfold feature_test.
  destruct CRYPT_GENSALT_IMPLEMENTS_DEFAULT_PREFIX,
    CRYPT_GENSALT_IMPLEMENTS_AUTO_ENTROPY; cbn [negb]; split;
    try discriminate; try reflexivity.
  - split; [discriminate | intros [_ [=]]].
  - split; [intros _; split; reflexivity | reflexivity].
  - split; [discriminate | intros [[=] _]].
  - split; [discriminate | intros [[=] _]].
Qed.

Lemma feature_test_order_witness :
  @feature_test (Mini.header_with false false) =
    Some "libcrypt does not support CRYPT_GENSALT_IMPLEMENTS_DEFAULT_PREFIX"%string.
Proof.
  apply (proj1 (@feature_test_order (Mini.header_with false false))).
  reflexivity.
Defined.

(** * The hash operation *)

Section Hash.
Context `{Libcrypt}.

Lemma hash_output_no_nul ph st : has_nul (hash_output ph st) = false.
Proof. apply until_nul_no_nul. Qed.

(** What [wrap_crypt_r] hands back, as the caller reads it. *)
Lemma wrap_crypt_r_text m phrase setting ph st :
  load_arg m phrase = Some ph →
  load_arg m setting = Some st →
  ∃ r m',
    wrap_crypt_r phrase setting m = Some (r, m') ∧
    unchanged m m' ∧
    (r = NULL ↔
     (hash_answer ph st).1 = None ∨ can_copy (hash_output ph st) m = false) ∧
    text m' r = if negb (is_null r) then Some (hash_output ph st) else None.
Proof.
  intros Hph Hst.
  destruct (wrap_crypt_r_outcome m phrase setting ph st Hph Hst)
    as (r & m' & Hrun & Hout & _).
  exists r, m'. split; [exact Hrun|]. split; [|split].
  - eapply outcome_unchanged, Hout.
  - rewrite <- copied_false. eapply outcome_null_iff, Hout.
  - destruct r as [|b ofs]; [reflexivity|].
    destruct (outcome_returned _ _ _ _ _ _ _ Hout (hash_output_no_nul ph st))
      as (b' & _ & _ & _ & _ & Htext & _); [discriminate|].
    exact Htext.
Qed.

(** C2, as the code has it.  [wrap_crypt_r] returns [NULL] exactly when
    [crypt_r] returned [NULL] or the copy of the result could not be
    allocated ([strdup] returned [NULL]); a pointer that is not [NULL]
    is one behind which the caller reads the string of [data->output].
    An error of the library is thus never read as a string, not even
    the empty one. *)
Theorem wrap_crypt_r_error_iff m phrase setting ph st :
  load_arg m phrase = Some ph →
  load_arg m setting = Some st →
  ∃ r m',
    wrap_crypt_r phrase setting m = Some (r, m') ∧
    (r = NULL ↔
     (lib_crypt_r ph st zeroed_data).1 = None ∨
     can_copy (until_nul (drop offsetof_output (lib_crypt_r ph st zeroed_data).2)) m
     = false) ∧
    (text m' r = None ↔ r = NULL) ∧
    (r ≠ NULL →
     text m' r =
       Some (until_nul (drop offsetof_output (lib_crypt_r ph st zeroed_data).2))).
Proof.
  intros Hph Hst.
  destruct (wrap_crypt_r_text m phrase setting ph st Hph Hst)
    as (r & m' & Hrun & _ & Hnull & Htext).
  exists r, m'. split; [exact Hrun|]. split; [exact Hnull|].
  rewrite Htext. destruct r as [|b ofs]; simpl; split.
  - split; reflexivity.
  - intros Hr. contradiction.
  - split; discriminate.
  - intros _. reflexivity.
Qed.

(** C5, as the code has it.  Two runs of [wrap_crypt_r] on equal phrases
    and equal settings, whatever else the two memories hold: each returns
    [NULL] exactly when the library fails or its own copy cannot be
    allocated, and every pointer returned that is not [NULL] is one
    behind which the caller reads the same string, the library's result
    for the two strings. *)
Theorem wrap_crypt_r_deterministic m1 m2 phrase1 setting1 phrase2 setting2 ph st :
  load_arg m1 phrase1 = Some ph →
  load_arg m1 setting1 = Some st →
  load_arg m2 phrase2 = Some ph →
  load_arg m2 setting2 = Some st →
  ∃ r1 m1' r2 m2',
    wrap_crypt_r phrase1 setting1 m1 = Some (r1, m1') ∧
    wrap_crypt_r phrase2 setting2 m2 = Some (r2, m2') ∧
    (r1 = NULL ↔
     (hash_answer ph st).1 = None ∨ can_copy (hash_output ph st) m1 = false) ∧
    (r2 = NULL ↔
     (hash_answer ph st).1 = None ∨ can_copy (hash_output ph st) m2 = false) ∧
    (r1 ≠ NULL → text m1' r1 = Some (hash_output ph st)) ∧
    (r2 ≠ NULL → text m2' r2 = Some (hash_output ph st)).
Proof.
  intros Hph1 Hst1 Hph2 Hst2.
  destruct (wrap_crypt_r_text m1 phrase1 setting1 ph st Hph1 Hst1)
    as (r1 & m1' & Hrun1 & _ & Hnull1 & Htext1).
  destruct (wrap_crypt_r_text m2 phrase2 setting2 ph st Hph2 Hst2)
    as (r2 & m2' & Hrun2 & _ & Hnull2 & Htext2).
  exists r1, m1', r2, m2'.
  split; [exact Hrun1|]. split; [exact Hrun2|].
  split; [exact Hnull1|]. split; [exact Hnull2|]. split.
  - intros Hr. rewrite Htext1. destruct r1; [contradiction|reflexivity].
  - intros Hr. rewrite Htext2. destruct r2; [contradiction|reflexivity].
Qed.

(** C6. [wrap_crypt_r] makes one call of [crypt_r], with the two
    pointers it was given, and does nothing else with them: for all
    strings behind them, the empty ones too, it returns [NULL] exactly
    when the library rejects these strings or the copy of the result
    cannot be allocated. *)
Theorem wrap_crypt_r_passes_arguments m phrase setting ph st :
  load_arg m phrase = Some ph →
  load_arg m setting = Some st →
  ∃ r m' data,
    wrap_crypt_r phrase setting m = Some (r, m') ∧
    calls m' = calls m ++ [call_crypt_r phrase setting data] ∧
    (r = NULL ↔
     (lib_crypt_r ph st zeroed_data).1 = None ∨
     can_copy (until_nul (drop offsetof_output (lib_crypt_r ph st zeroed_data).2)) m
     = false).
Proof.
  intros Hph Hst.
  destruct (wrap_crypt_r_outcome m phrase setting ph st Hph Hst)
    as (r & m' & Hrun & Hout & Hcalls & _).
  exists r, m', (Ptr (next_block m) 0).
  split; [exact Hrun|]. split; [exact Hcalls|].
  apply outcome_null_iff in Hout. rewrite copied_false in Hout.
  exact Hout.
Qed.
End Hash.

(** * Salt generation *)

Section Gensalt.
Context `{Libcrypt}.

(** C4. For a prefix that is the empty string, [wrap_crypt_gensalt_rn]
    calls [crypt_gensalt_rn] with [NULL] for the prefix, and returns
    [NULL] exactly when the library fails to make a salt for an absent
    prefix or the copy of the salt cannot be allocated, never because
    of the prefix; for any other prefix, the pointer is passed as it
    is. *)
Theorem wrap_crypt_gensalt_rn_prefix m prefix s :
  load_cstring m prefix = Some s →
  ∃ r m' buf,
    wrap_crypt_gensalt_rn prefix m = Some (r, m') ∧
    (s = [] →
     calls m' = calls m ++
       [call_crypt_gensalt_rn NULL 0 NULL 0 buf (Z.of_nat CRYPT_GENSALT_OUTPUT_SIZE)] ∧
     (r = NULL ↔
      (gensalt_answer None m).1.1 = None ∨
      can_copy (until_nul (gensalt_window None m)) m = false)) ∧
    (s ≠ [] →
     calls m' = calls m ++
       [call_crypt_gensalt_rn prefix 0 NULL 0 buf (Z.of_nat CRYPT_GENSALT_OUTPUT_SIZE)] ∧
     (r = NULL ↔
      (gensalt_answer (Some s) m).1.1 = None ∨
      can_copy (until_nul (gensalt_window (Some s) m)) m = false)).
Proof.
  intros Hs.
  destruct (wrap_crypt_gensalt_rn_outcome m prefix s Hs)
    as (r & m' & Hrun & Hout & Hcalls & _).
  exists r, m', (Ptr (next_block m) 0). split; [exact Hrun|].
  apply outcome_null_iff in Hout. rewrite copied_false in Hout.
  unfold prefix_passed, prefix_read in *.
  destruct (decide (length s = 0)) as [Hlen|Hlen];
    rewrite length_zero_iff_nil in Hlen; split; intros Hcase;
    try contradiction; auto.
Qed.

(** C10. [wrap_crypt_gensalt_rn] is defined exactly on the prefixes that
    point to a terminated string: [strlen] reads the prefix before
    anything else, so a [NULL] prefix is outside the domain. *)
Theorem wrap_crypt_gensalt_rn_domain m prefix :
  (valid_string m prefix → is_Some (wrap_crypt_gensalt_rn prefix m)) ∧
  (¬ valid_string m prefix → wrap_crypt_gensalt_rn prefix m = None) ∧
  wrap_crypt_gensalt_rn NULL m = None.
Proof.
  split; [|split].
  - intros [s Hs].
    destruct (wrap_crypt_gensalt_rn_outcome m prefix s Hs) as (r & m' & Hrun & _).
    rewrite Hrun. eauto.
  - intros Hinvalid. apply wrap_crypt_gensalt_rn_undefined.
    destruct (load_cstring m prefix) eqn:Hs; [|reflexivity].
    exfalso. apply Hinvalid. unfold valid_string. rewrite Hs. eauto.
  - apply wrap_crypt_gensalt_rn_undefined. reflexivity.
Qed.

(** A successful call, in terms of the window of the output buffer. *)
Lemma wrap_crypt_gensalt_rn_success m prefix r m' :
  wrap_crypt_gensalt_rn prefix m = Some (r, m') →
  r ≠ NULL →
  ∃ arg b buf window,
    r = Ptr b 0 ∧
    last (calls m') =
      Some (call_crypt_gensalt_rn arg 0 NULL 0 (Ptr buf 0)
              (Z.of_nat CRYPT_GENSALT_OUTPUT_SIZE)) ∧
    window = take CRYPT_GENSALT_OUTPUT_SIZE (bytes_of m' buf) ∧
    length window = CRYPT_GENSALT_OUTPUT_SIZE ∧
    bytes_of m' b = until_nul window ++ [NUL] ∧
    text m' r = Some (until_nul window).
Proof.
  intros Hrun Hr.
  destruct (load_cstring m prefix) as [s|] eqn:Hs; cycle 1.
  { rewrite wrap_crypt_gensalt_rn_undefined in Hrun by exact Hs. discriminate. }
  destruct (wrap_crypt_gensalt_rn_outcome m prefix s Hs)
    as (r' & m'' & Hrun' & Hout & Hcalls & _).
  rewrite Hrun in Hrun'. injection Hrun' as <- <-.
  destruct r as [|b ofs]; [contradiction|].
  destruct (outcome_result _ _ _ _ _ _ _ _ _ Hout eq_refl) as (-> & _ & _ & Hb).
  exists (prefix_passed prefix s), b, (next_block m),
    (gensalt_window (prefix_read s) m).
  split; [reflexivity|]. split; [rewrite Hcalls; apply last_snoc|].
  unfold bytes_of at 1.
  rewrite (outcome_scratch_released _ _ _ _ _ _ _ Hout). cbn [obj_bytes].
  rewrite <- gensalt_window_whole.
  split; [|split; [apply gensalt_window_length|split]].
  - symmetry. apply take_ge. rewrite gensalt_window_length. lia.
  - unfold bytes_of. rewrite Hb. reflexivity.
  - rewrite (outcome_text _ _ _ _ _ _ _ Hout) by apply until_nul_no_nul.
    pose proof (outcome_null_iff _ _ _ _ _ _ _ Hout) as [_ Hnull].
    destruct (succeeded _ && _); [reflexivity|].
    discriminate (Hnull eq_refl).
Qed.

(** C1, as the code has it.  On a successful call the object returned
    holds the bytes of the [CRYPT_GENSALT_OUTPUT_SIZE] window of the
    output buffer that come before its first terminator, and a
    terminator: the whole window when it holds no terminator, fewer
    bytes than the window when it holds one. *)
Theorem wrap_crypt_gensalt_rn_copy m prefix r m' :
  wrap_crypt_gensalt_rn prefix m = Some (r, m') →
  r ≠ NULL →
  ∃ arg b buf window,
    r = Ptr b 0 ∧
    last (calls m') =
      Some (call_crypt_gensalt_rn arg 0 NULL 0 (Ptr buf 0)
              (Z.of_nat CRYPT_GENSALT_OUTPUT_SIZE)) ∧
    window = take CRYPT_GENSALT_OUTPUT_SIZE (bytes_of m' buf) ∧
    bytes_of m' b = until_nul window ++ [NUL] ∧
    (has_nul window = false → bytes_of m' b = window ++ [NUL]) ∧
    (has_nul window = true →
     length (until_nul window) < CRYPT_GENSALT_OUTPUT_SIZE).
Proof.
  intros Hrun Hr.
  destruct (wrap_crypt_gensalt_rn_success m prefix r m' Hrun Hr)
    as (arg & b & buf & window & Hb & Hcall & Hwin & Hlen & Hbytes & _).
  exists arg, b, buf, window. repeat split; try assumption.
  - intros Hno. rewrite Hbytes, until_nul_id by exact Hno. reflexivity.
  - intros Hnul. rewrite <- Hlen. apply until_nul_shorter, Hnul.
Qed.
End Gensalt.

(** * Lifetimes *)

Section Lifetimes.
Context `{Libcrypt}.

(** C7. A call of [wrap_crypt_r] or of [wrap_crypt_gensalt_rn] leaves
    the objects of the caller as they were; the scratch object it gave
    to the library is a new local object whose lifetime has ended at
    the return; the only object alive in addition after the call is the
    one returned, a new block from [malloc] that is not the scratch
    object and in which the caller reads a copy of the string the
    library left in the scratch object.  (The lifetime of the scratch
    object ends; its bytes are not overwritten first.) *)
Theorem shim_calls_scoped m phrase setting prefix :
  valid_arg m phrase →
  valid_arg m setting →
  valid_string m prefix →
  (∃ r m' data,
     wrap_crypt_r phrase setting m = Some (r, m') ∧
     last (calls m') = Some (call_crypt_r phrase setting data) ∧
     call_scoped m data r m' ∧
     copy_of_scratch m' data r (λ d, until_nul (drop offsetof_output d))) ∧
  (∃ r m' arg buf,
     wrap_crypt_gensalt_rn prefix m = Some (r, m') ∧
     last (calls m') =
       Some (call_crypt_gensalt_rn arg 0 NULL 0 buf
               (Z.of_nat CRYPT_GENSALT_OUTPUT_SIZE)) ∧
     call_scoped m buf r m' ∧
     copy_of_scratch m' buf r (λ d, until_nul (take CRYPT_GENSALT_OUTPUT_SIZE d))).
Proof.
  intros [ph Hph] [st Hst] [s Hs]. split.
  - destruct (wrap_crypt_r_outcome m phrase setting ph st Hph Hst)
      as (r & m' & Hrun & Hout & Hcalls & _).
    exists r, m', (Ptr (next_block m) 0).
    split; [exact Hrun|]. split; [rewrite Hcalls; apply last_snoc|]. split.
    + eapply outcome_call_scoped; [exact Hout | apply until_nul_no_nul].
    + eapply outcome_copy_of_scratch;
        [exact Hout | apply until_nul_no_nul | reflexivity].
  - destruct (wrap_crypt_gensalt_rn_outcome m prefix s Hs)
      as (r & m' & Hrun & Hout & Hcalls & _).
    exists r, m', (prefix_passed prefix s), (Ptr (next_block m) 0).
    split; [exact Hrun|]. split; [rewrite Hcalls; apply last_snoc|]. split.
    + eapply outcome_call_scoped; [exact Hout | apply until_nul_no_nul].
    + eapply outcome_copy_of_scratch;
        [exact Hout | apply until_nul_no_nul | reflexivity].
Qed.
End Lifetimes.

(** * The text of a salt *)

Lemma wrap_crypt_gensalt_rn_succeeds `{Libcrypt} m prefix s :
  load_cstring m prefix = Some s →
  (gensalt_answer (prefix_read s) m).1.1 ≠ None →
  can_copy (until_nul (gensalt_window (prefix_read s) m)) m = true →
  ∃ b m',
    wrap_crypt_gensalt_rn prefix m = Some (Ptr b 0, m') ∧
    bytes_of m' b = until_nul (gensalt_window (prefix_read s) m) ++ [NUL] ∧
    text m' (Ptr b 0) = Some (until_nul (gensalt_window (prefix_read s) m)).
Proof.
  intros Hs Hok Hroom.
  destruct (wrap_crypt_gensalt_rn_outcome m prefix s Hs)
    as (r & m' & Hrun & Hout & _).
  assert (Hr : r ≠ NULL).
  { intros Hnull. apply (outcome_null_iff _ _ _ _ _ _ _ Hout) in Hnull.
    apply copied_false in Hnull as [Hnone|Hfull]; [contradiction|congruence]. }
  destruct (outcome_returned _ _ _ _ _ _ _ Hout (until_nul_no_nul _) Hr)
    as (b & -> & _ & _ & Hb & Htext & _).
  exists b, m'. split; [exact Hrun|]. split; [|exact Htext].
  unfold bytes_of. rewrite Hb. reflexivity.
Qed.

(** C8. On a successful call of [wrap_crypt_gensalt_rn] the object
    returned holds the text the caller reads and one terminator, nothing
    after it; the text has no [NUL] in it and is the content of the
    output buffer cut at its first [NUL]; it has at most
    [CRYPT_GENSALT_OUTPUT_SIZE] bytes, fewer whenever the buffer holds
    a [NUL], and there are calls where it has fewer. *)
Theorem wrap_crypt_gensalt_rn_text :
  (∀ (H : CryptHeader) (L : Libcrypt) m prefix r m',
     wrap_crypt_gensalt_rn prefix m = Some (r, m') →
     r ≠ NULL →
     ∃ arg b buf t,
       r = Ptr b 0 ∧
       last (calls m') =
         Some (call_crypt_gensalt_rn arg 0 NULL 0 (Ptr buf 0)
                 (Z.of_nat CRYPT_GENSALT_OUTPUT_SIZE)) ∧
       bytes_of m' b = t ++ [NUL] ∧
       text m' r = Some t ∧
       has_nul t = false ∧
       t = until_nul (take CRYPT_GENSALT_OUTPUT_SIZE (bytes_of m' buf)) ∧
       length t ≤ CRYPT_GENSALT_OUTPUT_SIZE ∧
       (has_nul (take CRYPT_GENSALT_OUTPUT_SIZE (bytes_of m' buf)) = true →
        length t < CRYPT_GENSALT_OUTPUT_SIZE)) ∧
  (∃ (H : CryptHeader) (L : Libcrypt) m prefix r m' t,
     wrap_crypt_gensalt_rn prefix m = Some (r, m') ∧
     text m' r = Some t ∧
     length t < CRYPT_GENSALT_OUTPUT_SIZE).
Proof.
  split.
  - intros H L m prefix r m' Hrun Hr.
    destruct (wrap_crypt_gensalt_rn_success m prefix r m' Hrun Hr)
      as (arg & b & buf & window & Hb & Hcall & Hwin & Hlen & Hbytes & Htext).
    exists arg, b, buf, (until_nul window). subst window.
    repeat split; try assumption.
    + apply until_nul_no_nul.
    + rewrite <- Hlen at 2. apply until_nul_length.
    + intros Hnul. rewrite <- Hlen at 2. apply until_nul_shorter, Hnul.
  - exists Mini.header, Mini.lib, Mini.m0, (Ptr 3 0).
    destruct (@wrap_crypt_gensalt_rn_succeeds Mini.header Mini.lib Mini.m0 (Ptr 3 0) [])
      as (b & m' & Hrun & _ & Htext); [reflexivity | discriminate | reflexivity |].
    exists (Ptr b 0), m', (until_nul (@gensalt_window Mini.header Mini.lib None Mini.m0)).
    split; [exact Hrun|]. split; [exact Htext|].
    vm_compute. lia.
Qed.

(** * Successive calls *)

Section Successive.
Context `{Libcrypt}.

(** A pointer returned that is not [NULL] is an argument a later call
    accepts, and the string read behind it is the text that was returned. *)
Lemma outcome_result_arg m scratch d str ok r m' :
  outcome m scratch d str ok r m' →
  has_nul str = false →
  r ≠ NULL →
  load_arg m' r = Some (Some str).
Proof.
  intros Hout Hstr Hr.
  destruct (outcome_returned _ _ _ _ _ _ _ Hout Hstr Hr)
    as (b & -> & _ & _ & _ & Htext & _).
  unfold text in Htext. simpl. rewrite Htext. reflexivity.
Qed.

(** What a call returns stays where it is through a later call: the
    copy is still a live block from [malloc] with the same bytes, the
    caller reads the same text in it, and the pointer the later call
    returns is another one. *)
Lemma outcome_then_outcome m sc1 d1 str1 ok1 r1 m1 sc2 d2 str2 ok2 r2 m2 :
  outcome m sc1 d1 str1 ok1 r1 m1 →
  outcome m1 sc2 d2 str2 ok2 r2 m2 →
  has_nul str1 = false →
  r1 ≠ NULL →
  ∃ b,
    r1 = Ptr b 0 ∧
    objects m2 !! b = Some (Object Allocated true (str1 ++ [NUL])) ∧
    text m1 r1 = Some str1 ∧
    text m2 r1 = Some str1 ∧
    r1 ≠ r2.
Proof.
  intros Hout1 Hout2 Hstr1 Hr1.
  destruct (outcome_returned _ _ _ _ _ _ _ Hout1 Hstr1 Hr1)
    as (b & -> & _ & _ & Hb & Htext & _).
  pose proof (outcome_unchanged _ _ _ _ _ _ _ Hout2) as Hun.
  exists b. split; [reflexivity|]. split; [|split; [exact Htext|split]].
  - rewrite (Hun b); [exact Hb|]. apply elem_of_dom. eauto.
  - eapply load_cstring_unchanged; [exact Hun | exact Htext].
  - intros Heq.
    destruct (outcome_result _ _ _ _ _ _ _ _ _ Hout2 (eq_sym Heq)) as (_ & _ & Hnew & _).
    congruence.
Qed.

(** Salt generation followed by hashing.  The pointer returned by a
    successful [wrap_crypt_gensalt_rn] can be given to [wrap_crypt_r] as
    the setting: that call is defined, passes this very pointer to
    [crypt_r], returns [NULL] exactly when the library rejects the phrase
    with the salt that was returned as setting or the copy of the hash
    cannot be allocated, returns otherwise the library's hash for that
    salt, and leaves the salt readable. *)
Theorem salt_then_hash m prefix phrase ph r1 m1 :
  load_arg m phrase = Some ph →
  wrap_crypt_gensalt_rn prefix m = Some (r1, m1) →
  r1 ≠ NULL →
  ∃ salt r2 m2 data,
    text m1 r1 = Some salt ∧
    wrap_crypt_r phrase r1 m1 = Some (r2, m2) ∧
    calls m2 = calls m1 ++ [call_crypt_r phrase r1 data] ∧
    (r2 = NULL ↔
     (lib_crypt_r ph (Some salt) zeroed_data).1 = None ∨
     can_copy (hash_output ph (Some salt)) m1 = false) ∧
    (r2 ≠ NULL → text m2 r2 = Some (hash_output ph (Some salt))) ∧
    text m2 r1 = Some salt.
Proof.
  intros Hph Hrun Hr1.
  destruct (load_cstring m prefix) as [s|] eqn:Hs; cycle 1.
  { rewrite wrap_crypt_gensalt_rn_undefined in Hrun by exact Hs. discriminate. }
  destruct (wrap_crypt_gensalt_rn_outcome m prefix s Hs)
    as (r' & m' & Hrun' & Hout1 & _).
  rewrite Hrun in Hrun'. injection Hrun' as <- <-.
  set (salt := until_nul (gensalt_window (prefix_read s) m)) in *.
  assert (Hsalt : has_nul salt = false) by apply until_nul_no_nul.
  pose proof (outcome_result_arg _ _ _ _ _ _ _ Hout1 Hsalt Hr1) as Harg.
  pose proof (load_arg_unchanged _ _ _ _ (outcome_unchanged _ _ _ _ _ _ _ Hout1) Hph)
    as Hph1.
  destruct (wrap_crypt_r_outcome m1 phrase r1 ph (Some salt) Hph1 Harg)
    as (r2 & m2 & Hrun2 & Hout2 & Hcalls & _).
  destruct (outcome_then_outcome _ _ _ _ _ _ _ _ _ _ _ _ _ Hout1 Hout2 Hsalt Hr1)
    as (b & _ & _ & Htext1 & Hkept & _).
  exists salt, r2, m2, (Ptr (next_block m1) 0).
  split; [exact Htext1|]. split; [exact Hrun2|]. split; [exact Hcalls|].
  split; [|split; [|exact Hkept]].
  - fold (hash_answer ph (Some salt)). rewrite <- copied_false.
    eapply outcome_null_iff, Hout2.
  - intros Hr2.
    destruct (outcome_returned _ _ _ _ _ _ _ Hout2 (hash_output_no_nul _ _) Hr2)
      as (b2 & _ & _ & _ & _ & Htext2 & _).
    exact Htext2.
Qed.

(** Hashing followed by verification.  The pointer returned by a
    successful [wrap_crypt_r] can be given back as the setting of a
    second call with the same phrase: that call is defined, passes this
    pointer to [crypt_r], returns [NULL] exactly when the library rejects
    the first hash as setting or the second copy cannot be allocated,
    returns otherwise the library's answer in another object, and leaves
    the first hash readable for the comparison. *)
Theorem hash_then_verify m phrase setting ph st r1 m1 :
  load_arg m phrase = Some ph →
  load_arg m setting = Some st →
  wrap_crypt_r phrase setting m = Some (r1, m1) →
  r1 ≠ NULL →
  ∃ r2 m2 data,
    text m1 r1 = Some (hash_output ph st) ∧
    wrap_crypt_r phrase r1 m1 = Some (r2, m2) ∧
    calls m2 = calls m1 ++ [call_crypt_r phrase r1 data] ∧
    text m2 r1 = Some (hash_output ph st) ∧
    (r2 = NULL ↔
     (lib_crypt_r ph (Some (hash_output ph st)) zeroed_data).1 = None ∨
     can_copy (hash_output ph (Some (hash_output ph st))) m1 = false) ∧
    (r2 ≠ NULL →
     text m2 r2 = Some (hash_output ph (Some (hash_output ph st)))) ∧
    r1 ≠ r2.
Proof.
  intros Hph Hst Hrun Hr1.
  destruct (wrap_crypt_r_outcome m phrase setting ph st Hph Hst)
    as (r' & m' & Hrun' & Hout1 & _).
  rewrite Hrun in Hrun'. injection Hrun' as <- <-.
  pose proof (hash_output_no_nul ph st) as Hhash.
  pose proof (outcome_result_arg _ _ _ _ _ _ _ Hout1 Hhash Hr1) as Harg.
  pose proof (load_arg_unchanged _ _ _ _ (outcome_unchanged _ _ _ _ _ _ _ Hout1) Hph)
    as Hph1.
  destruct (wrap_crypt_r_outcome m1 phrase r1 ph (Some (hash_output ph st)) Hph1 Harg)
    as (r2 & m2 & Hrun2 & Hout2 & Hcalls & _).
  destruct (outcome_then_outcome _ _ _ _ _ _ _ _ _ _ _ _ _ Hout1 Hout2 Hhash Hr1)
    as (b & _ & _ & Htext1 & Hkept & Hdiff).
  exists r2, m2, (Ptr (next_block m1) 0).
  split; [exact Htext1|]. split; [exact Hrun2|]. split; [exact Hcalls|].
  split; [exact Hkept|]. split; [|split; [|exact Hdiff]].
  - fold (hash_answer ph (Some (hash_output ph st))). rewrite <- copied_false.
    eapply outcome_null_iff, Hout2.
  - intros Hr2.
    destruct (outcome_returned _ _ _ _ _ _ _ Hout2 (hash_output_no_nul _ _) Hr2)
      as (b2 & _ & _ & _ & _ & Htext2 & _).
    exact Htext2.
Qed.

(** Two calls of [wrap_crypt_r] in a row, on any arguments: the second
    call is defined on the memory the first leaves; a hash returned by
    the first call is, after the second call, still a live block from
    [malloc] in which the caller reads the same text, and it is not the
    pointer the second call returns; a hash returned by the second call
    is readable beside it. *)
Theorem wrap_crypt_r_results_distinct m phrase1 setting1 phrase2 setting2 :
  valid_arg m phrase1 →
  valid_arg m setting1 →
  valid_arg m phrase2 →
  valid_arg m setting2 →
  ∃ r1 m1 r2 m2,
    wrap_crypt_r phrase1 setting1 m = Some (r1, m1) ∧
    wrap_crypt_r phrase2 setting2 m1 = Some (r2, m2) ∧
    (r1 ≠ NULL →
     ∃ b t,
       r1 = Ptr b 0 ∧
       objects m2 !! b = Some (Object Allocated true (t ++ [NUL])) ∧
       text m1 r1 = Some t ∧
       text m2 r1 = Some t ∧
       r1 ≠ r2) ∧
    (r2 ≠ NULL → is_Some (text m2 r2)).
Proof.
  intros [ph1 Hph1] [st1 Hst1] [ph2 Hph2] [st2 Hst2].
  destruct (wrap_crypt_r_outcome m phrase1 setting1 ph1 st1 Hph1 Hst1)
    as (r1 & m1 & Hrun1 & Hout1 & _).
  pose proof (outcome_unchanged _ _ _ _ _ _ _ Hout1) as Hun.
  destruct (wrap_crypt_r_outcome m1 phrase2 setting2 ph2 st2)
    as (r2 & m2 & Hrun2 & Hout2 & _);
    [eapply load_arg_unchanged; eassumption.. |].
  exists r1, m1, r2, m2. split; [exact Hrun1|]. split; [exact Hrun2|]. split.
  - intros Hr1.
    destruct (outcome_then_outcome _ _ _ _ _ _ _ _ _ _ _ _ _ Hout1 Hout2
                (hash_output_no_nul _ _) Hr1) as (b & Hb & Hrest).
    exists b, (hash_output ph1 st1). split; [exact Hb | exact Hrest].
  - intros Hr2.
    destruct (outcome_returned _ _ _ _ _ _ _ Hout2 (hash_output_no_nul _ _) Hr2)
      as (b2 & _ & _ & _ & _ & Htext2 & _).
    rewrite Htext2. eauto.
Qed.

(** The same for two calls of [wrap_crypt_gensalt_rn]. *)
Theorem wrap_crypt_gensalt_rn_results_distinct m prefix1 prefix2 :
  valid_string m prefix1 →
  valid_string m prefix2 →
  ∃ r1 m1 r2 m2,
    wrap_crypt_gensalt_rn prefix1 m = Some (r1, m1) ∧
    wrap_crypt_gensalt_rn prefix2 m1 = Some (r2, m2) ∧
    (r1 ≠ NULL →
     ∃ b t,
       r1 = Ptr b 0 ∧
       objects m2 !! b = Some (Object Allocated true (t ++ [NUL])) ∧
       text m1 r1 = Some t ∧
       text m2 r1 = Some t ∧
       r1 ≠ r2) ∧
    (r2 ≠ NULL → is_Some (text m2 r2)).
Proof.
  intros [s1 Hs1] [s2 Hs2].
  destruct (wrap_crypt_gensalt_rn_outcome m prefix1 s1 Hs1)
    as (r1 & m1 & Hrun1 & Hout1 & _).
  pose proof (outcome_unchanged _ _ _ _ _ _ _ Hout1) as Hun.
  destruct (wrap_crypt_gensalt_rn_outcome m1 prefix2 s2)
    as (r2 & m2 & Hrun2 & Hout2 & _);
    [eapply load_cstring_unchanged; eassumption |].
  exists r1, m1, r2, m2. split; [exact Hrun1|]. split; [exact Hrun2|]. split.
  - intros Hr1.
    destruct (outcome_then_outcome _ _ _ _ _ _ _ _ _ _ _ _ _ Hout1 Hout2
                (until_nul_no_nul _) Hr1) as (b & Hb & Hrest).
    exists b, (until_nul (gensalt_window (prefix_read s1) m)).
    split; [exact Hb | exact Hrest].
  - intros Hr2.
    destruct (outcome_returned _ _ _ _ _ _ _ Hout2 (until_nul_no_nul _) Hr2)
      as (b2 & _ & _ & _ & _ & Htext2 & _).
    rewrite Htext2. eauto.
Qed.

(** The size [wrap_crypt_gensalt_rn] passes to [crypt_gensalt_rn] is the
    size of the object it passes as output buffer, and this object is
    one the caller did not have. *)
Theorem wrap_crypt_gensalt_rn_buffer_size m prefix :
  valid_string m prefix →
  ∃ r m' arg b size,
    wrap_crypt_gensalt_rn prefix m = Some (r, m') ∧
    last (calls m') = Some (call_crypt_gensalt_rn arg 0 NULL 0 (Ptr b 0) size) ∧
    size = Z.of_nat (length (bytes_of m' b)) ∧
    b ∉ dom (objects m).
Proof.
  intros [s Hs].
  destruct (wrap_crypt_gensalt_rn_outcome m prefix s Hs)
    as (r & m' & Hrun & Hout & Hcalls & _).
  exists r, m', (prefix_passed prefix s), (next_block m),
    (Z.of_nat CRYPT_GENSALT_OUTPUT_SIZE).
  split; [exact Hrun|]. split; [rewrite Hcalls; apply last_snoc|]. split.
  - unfold bytes_of. rewrite (outcome_scratch_released _ _ _ _ _ _ _ Hout).
    cbn [obj_bytes]. rewrite <- gensalt_window_whole, gensalt_window_length.
    reflexivity.
  - apply not_elem_of_dom. eapply outcome_scratch_new, Hout.
Qed.
End Successive.

(** * The shim on the miniature library *)

Import Mini.

(** Hashing [correct horse] with the setting [$6$salt] on [m0]: the
    scratch structure is block 5, the copy returned block 6. *)
Example hash_run :
  result_ptr (wrap_crypt_r (Ptr 1 0) (Ptr 2 0) m0) = Ptr 6 0 ∧
  text (result_mem (wrap_crypt_r (Ptr 1 0) (Ptr 2 0) m0) m0) (Ptr 6 0)
  = Some (list_byte_of_string "$6$salt$esroh tcerroc") ∧
  calls (result_mem (wrap_crypt_r (Ptr 1 0) (Ptr 2 0) m0) m0)
  = [call_crypt_r (Ptr 1 0) (Ptr 2 0) (Ptr 5 0)].
Proof. vm_compute. repeat split; reflexivity. Qed.

(** With the empty setting the library refuses, and so does the shim. *)
Example hash_run_refused :
  wrap_crypt_r (Ptr 1 0) (Ptr 3 0) m0
  = Some (NULL, result_mem (wrap_crypt_r (Ptr 1 0) (Ptr 3 0) m0) m0).
Proof. vm_compute. reflexivity. Qed.

(** A [NULL] prefix, and a prefix that points past its object. *)
Example salt_run_undefined :
  wrap_crypt_gensalt_rn NULL m0 = None ∧
  wrap_crypt_gensalt_rn (Ptr 2 8) m0 = None.
Proof. vm_compute. split; reflexivity. Qed.

Lemma wrap_crypt_r_error_iff_witness :
  ∃ r m',
    wrap_crypt_r (Ptr 1 0) (Ptr 2 0) m0 = Some (r, m') ∧
    (r = NULL ↔
     (lib_crypt_r (Some (list_byte_of_string "correct horse"))
        (Some (list_byte_of_string "$6$salt")) zeroed_data).1 = None ∨
     can_copy (until_nul (drop offsetof_output
                 (lib_crypt_r (Some (list_byte_of_string "correct horse"))
                    (Some (list_byte_of_string "$6$salt")) zeroed_data).2)) m0
     = false) ∧
    (text m' r = None ↔ r = NULL) ∧
    (r ≠ NULL →
     text m' r =
       Some (until_nul (drop offsetof_output
              (lib_crypt_r (Some (list_byte_of_string "correct horse"))
                 (Some (list_byte_of_string "$6$salt")) zeroed_data).2))).
Proof.
  apply (wrap_crypt_r_error_iff m0 (Ptr 1 0) (Ptr 2 0)); reflexivity.
Defined.

(** On a heap with nothing left the library produces the hash and the
    shim returns [NULL]: [strdup] could not make the copy. *)
Example hash_run_exhausted :
  (lib_crypt_r (Some (list_byte_of_string "correct horse"))
     (Some (list_byte_of_string "$6$salt")) zeroed_data).1 = Some 0 ∧
  result_ptr (wrap_crypt_r (Ptr 1 0) (Ptr 2 0) m0_exhausted) = NULL ∧
  calls (result_mem (wrap_crypt_r (Ptr 1 0) (Ptr 2 0) m0_exhausted) m0_exhausted)
  = [call_crypt_r (Ptr 1 0) (Ptr 2 0) (Ptr 5 0)].
Proof. vm_compute. repeat split; reflexivity. Qed.

(** C2, as stated, fails: on [m0_exhausted] the shim returns [NULL]
    although [crypt_r] did not. *)
Lemma error_iff_library_error_counterexample :
  ¬ error_iff_library_error (Ptr 1 0) (Ptr 2 0) m0_exhausted.
Proof.
  intros Hiff.
  destruct (Hiff (Some (list_byte_of_string "correct horse"))
              (Some (list_byte_of_string "$6$salt")) NULL
              (result_mem (wrap_crypt_r (Ptr 1 0) (Ptr 2 0) m0_exhausted) m0_exhausted))
    as [Hnull _].
  - reflexivity.
  - reflexivity.
  - vm_compute. reflexivity.
  - specialize (Hnull eq_refl). vm_compute in Hnull. discriminate Hnull.
Qed.

Lemma wrap_crypt_r_deterministic_witness :
  ∃ r1 m1' r2 m2',
    wrap_crypt_r (Ptr 1 0) (Ptr 2 0) m0 = Some (r1, m1') ∧
    wrap_crypt_r (Ptr 5 0) (Ptr 3 0) Mini.m0_moved = Some (r2, m2') ∧
    (r1 = NULL ↔
     (hash_answer (Some (list_byte_of_string "correct horse"))
        (Some (list_byte_of_string "$6$salt"))).1 = None ∨
     can_copy (hash_output (Some (list_byte_of_string "correct horse"))
                 (Some (list_byte_of_string "$6$salt"))) m0 = false) ∧
    (r2 = NULL ↔
     (hash_answer (Some (list_byte_of_string "correct horse"))
        (Some (list_byte_of_string "$6$salt"))).1 = None ∨
     can_copy (hash_output (Some (list_byte_of_string "correct horse"))
                 (Some (list_byte_of_string "$6$salt"))) Mini.m0_moved = false) ∧
    (r1 ≠ NULL →
     text m1' r1 = Some (hash_output (Some (list_byte_of_string "correct horse"))
                           (Some (list_byte_of_string "$6$salt")))) ∧
    (r2 ≠ NULL →
     text m2' r2 = Some (hash_output (Some (list_byte_of_string "correct horse"))
                           (Some (list_byte_of_string "$6$salt")))).
Proof.
  apply (wrap_crypt_r_deterministic m0 Mini.m0_moved); reflexivity.
Defined.

(** C5, as stated, fails: the same phrase and setting give the hash on
    [m0] and [NULL] on [m0_exhausted]. *)
Lemma same_result_counterexample :
  ¬ same_result (Ptr 1 0) (Ptr 2 0) m0 (Ptr 1 0) (Ptr 2 0) m0_exhausted.
Proof.
  intros Hsame.
  destruct (Hsame (Ptr 6 0) (result_mem (wrap_crypt_r (Ptr 1 0) (Ptr 2 0) m0) m0)
              NULL
              (result_mem (wrap_crypt_r (Ptr 1 0) (Ptr 2 0) m0_exhausted) m0_exhausted))
    as [[_ Hnull] _].
  - reflexivity.
  - reflexivity.
  - vm_compute. reflexivity.
  - vm_compute. reflexivity.
  - discriminate (Hnull eq_refl).
Qed.

Lemma wrap_crypt_r_passes_arguments_witness :
  ∃ r m' data,
    wrap_crypt_r (Ptr 3 0) (Ptr 3 0) m0 = Some (r, m') ∧
    calls m' = calls m0 ++ [call_crypt_r (Ptr 3 0) (Ptr 3 0) data] ∧
    (r = NULL ↔
     (lib_crypt_r (Some []) (Some []) zeroed_data).1 = None ∨
     can_copy (until_nul (drop offsetof_output
                 (lib_crypt_r (Some []) (Some []) zeroed_data).2)) m0 = false).
Proof.
  apply (wrap_crypt_r_passes_arguments m0 (Ptr 3 0) (Ptr 3 0)); reflexivity.
Defined.

Lemma wrap_crypt_gensalt_rn_prefix_witness :
  (∃ r m' buf,
     wrap_crypt_gensalt_rn (Ptr 3 0) m0 = Some (r, m') ∧
     (@nil byte = [] →
      calls m' = calls m0 ++
        [call_crypt_gensalt_rn NULL 0 NULL 0 buf (Z.of_nat CRYPT_GENSALT_OUTPUT_SIZE)] ∧
      (r = NULL ↔
       (gensalt_answer None m0).1.1 = None ∨
       can_copy (until_nul (gensalt_window None m0)) m0 = false)) ∧
     (@nil byte ≠ [] →
      calls m' = calls m0 ++
        [call_crypt_gensalt_rn (Ptr 3 0) 0 NULL 0 buf (Z.of_nat CRYPT_GENSALT_OUTPUT_SIZE)] ∧
      (r = NULL ↔
       (gensalt_answer (Some []) m0).1.1 = None ∨
       can_copy (until_nul (gensalt_window (Some []) m0)) m0 = false))) ∧
  (∃ r m' buf,
     wrap_crypt_gensalt_rn (Ptr 4 0) m0 = Some (r, m') ∧
     (list_byte_of_string "$6$" = [] →
      calls m' = calls m0 ++
        [call_crypt_gensalt_rn NULL 0 NULL 0 buf (Z.of_nat CRYPT_GENSALT_OUTPUT_SIZE)] ∧
      (r = NULL ↔
       (gensalt_answer None m0).1.1 = None ∨
       can_copy (until_nul (gensalt_window None m0)) m0 = false)) ∧
     (list_byte_of_string "$6$" ≠ [] →
      calls m' = calls m0 ++
        [call_crypt_gensalt_rn (Ptr 4 0) 0 NULL 0 buf (Z.of_nat CRYPT_GENSALT_OUTPUT_SIZE)] ∧
      (r = NULL ↔
       (gensalt_answer (Some (list_byte_of_string "$6$")) m0).1.1 = None ∨
       can_copy (until_nul (gensalt_window (Some (list_byte_of_string "$6$")) m0)) m0
       = false))).
Proof.
  split.
  - apply (wrap_crypt_gensalt_rn_prefix m0 (Ptr 3 0) []). reflexivity.
  - apply (wrap_crypt_gensalt_rn_prefix m0 (Ptr 4 0) (list_byte_of_string "$6$")).
    reflexivity.
Defined.

Lemma wrap_crypt_gensalt_rn_domain_witness :
  is_Some (wrap_crypt_gensalt_rn (Ptr 4 0) m0) ∧
  wrap_crypt_gensalt_rn (Ptr 2 8) m0 = None.
Proof.
  split.
  - apply (proj1 (wrap_crypt_gensalt_rn_domain m0 (Ptr 4 0))).
    exists (list_byte_of_string "$6$"). reflexivity.
  - apply (proj1 (proj2 (wrap_crypt_gensalt_rn_domain m0 (Ptr 2 8)))).
    intros [s Hs]. vm_compute in Hs. discriminate Hs.
Defined.

Lemma wrap_crypt_gensalt_rn_copy_witness :
  ∃ arg b buf window,
    result_ptr (wrap_crypt_gensalt_rn (Ptr 3 0) m0) = Ptr b 0 ∧
    last (calls (result_mem (wrap_crypt_gensalt_rn (Ptr 3 0) m0) m0)) =
      Some (call_crypt_gensalt_rn arg 0 NULL 0 (Ptr buf 0)
              (Z.of_nat CRYPT_GENSALT_OUTPUT_SIZE)) ∧
    window = take CRYPT_GENSALT_OUTPUT_SIZE
               (bytes_of (result_mem (wrap_crypt_gensalt_rn (Ptr 3 0) m0) m0) buf) ∧
    bytes_of (result_mem (wrap_crypt_gensalt_rn (Ptr 3 0) m0) m0) b
      = until_nul window ++ [NUL] ∧
    (has_nul window = false →
     bytes_of (result_mem (wrap_crypt_gensalt_rn (Ptr 3 0) m0) m0) b = window ++ [NUL]) ∧
    (has_nul window = true →
     length (until_nul window) < CRYPT_GENSALT_OUTPUT_SIZE).
Proof.
  apply (wrap_crypt_gensalt_rn_copy m0 (Ptr 3 0)).
  - vm_compute. reflexivity.
  - vm_compute. discriminate.
Defined.

Lemma shim_calls_scoped_witness :
  (∃ r m' data,
     wrap_crypt_r (Ptr 1 0) (Ptr 2 0) m0 = Some (r, m') ∧
     last (calls m') = Some (call_crypt_r (Ptr 1 0) (Ptr 2 0) data) ∧
     call_scoped m0 data r m' ∧
     copy_of_scratch m' data r (λ d, until_nul (drop offsetof_output d))) ∧
  (∃ r m' arg buf,
     wrap_crypt_gensalt_rn (Ptr 4 0) m0 = Some (r, m') ∧
     last (calls m') =
       Some (call_crypt_gensalt_rn arg 0 NULL 0 buf
               (Z.of_nat CRYPT_GENSALT_OUTPUT_SIZE)) ∧
     call_scoped m0 buf r m' ∧
     copy_of_scratch m' buf r (λ d, until_nul (take CRYPT_GENSALT_OUTPUT_SIZE d))).
Proof.
  apply (shim_calls_scoped m0 (Ptr 1 0) (Ptr 2 0) (Ptr 4 0)).
  - exists (Some (list_byte_of_string "correct horse")). reflexivity.
  - exists (Some (list_byte_of_string "$6$salt")). reflexivity.
  - exists (list_byte_of_string "$6$"). reflexivity.
Defined.

Lemma wrap_crypt_gensalt_rn_text_witness :
  ∃ arg b buf t,
    result_ptr (wrap_crypt_gensalt_rn (Ptr 4 0) m0) = Ptr b 0 ∧
    last (calls (result_mem (wrap_crypt_gensalt_rn (Ptr 4 0) m0) m0)) =
      Some (call_crypt_gensalt_rn arg 0 NULL 0 (Ptr buf 0)
              (Z.of_nat CRYPT_GENSALT_OUTPUT_SIZE)) ∧
    bytes_of (result_mem (wrap_crypt_gensalt_rn (Ptr 4 0) m0) m0) b = t ++ [NUL] ∧
    text (result_mem (wrap_crypt_gensalt_rn (Ptr 4 0) m0) m0)
      (result_ptr (wrap_crypt_gensalt_rn (Ptr 4 0) m0)) = Some t ∧
    has_nul t = false ∧
    t = until_nul (take CRYPT_GENSALT_OUTPUT_SIZE
                     (bytes_of (result_mem (wrap_crypt_gensalt_rn (Ptr 4 0) m0) m0) buf)) ∧
    length t ≤ CRYPT_GENSALT_OUTPUT_SIZE ∧
    (has_nul (take CRYPT_GENSALT_OUTPUT_SIZE
                (bytes_of (result_mem (wrap_crypt_gensalt_rn (Ptr 4 0) m0) m0) buf)) = true →
     length t < CRYPT_GENSALT_OUTPUT_SIZE).
Proof.
  apply (proj1 wrap_crypt_gensalt_rn_text header lib m0 (Ptr 4 0)).
  - vm_compute. reflexivity.
  - vm_compute. discriminate.
Defined.

(** The salt made for the empty prefix on [m0]: the library wrote
    [$y$abcd] and a terminator at the start of the buffer (block 5),
    whose other bytes are what the storage held; the caller receives
    [$y$abcd] in an object of 8 bytes (block 6). *)
Example salt_run_buffer :
  take 12 (bytes_of (result_mem (wrap_crypt_gensalt_rn (Ptr 3 0) m0) m0) 5)
  = list_byte_of_string "$y$abcd" ++ [NUL] ++ list_byte_of_string "xxxx".
Proof. vm_compute. reflexivity. Qed.

Example salt_run_result :
  result_ptr (wrap_crypt_gensalt_rn (Ptr 3 0) m0) = Ptr 6 0 ∧
  bytes_of (result_mem (wrap_crypt_gensalt_rn (Ptr 3 0) m0) m0) 6
  = list_byte_of_string "$y$abcd" ++ [NUL].
Proof. vm_compute. split; reflexivity. Qed.

(** C1, as stated, fails: on [m0] and the empty prefix the call succeeds
    and the object returned holds 7 bytes and a terminator, not the 192
    bytes of the window. *)
Lemma fixed_window_copy_counterexample : ¬ fixed_window_copy (Ptr 3 0) m0.
Proof.
  intros Hcopy.
  destruct (wrap_crypt_gensalt_rn_succeeds m0 (Ptr 3 0) [])
    as (b & m' & Hrun & Hbytes & _); [reflexivity | discriminate | reflexivity |].
  destruct (wrap_crypt_gensalt_rn_success m0 (Ptr 3 0) (Ptr b 0) m' Hrun)
    as (arg & b' & buf & window & _ & Hcall & _); [discriminate|].
  destruct (Hcopy _ _ b arg buf Hrun eq_refl Hcall) as (copy & Hb & _ & Hlen).
  rewrite Hbytes in Hb. apply app_inj_tail in Hb as [<- _].
  vm_compute in Hlen. discriminate Hlen.
Qed.

Lemma salt_then_hash_witness :
  ∃ salt r2 m2 data,
    text (result_mem (wrap_crypt_gensalt_rn (Ptr 4 0) m0) m0)
      (result_ptr (wrap_crypt_gensalt_rn (Ptr 4 0) m0)) = Some salt ∧
    wrap_crypt_r (Ptr 1 0) (result_ptr (wrap_crypt_gensalt_rn (Ptr 4 0) m0))
      (result_mem (wrap_crypt_gensalt_rn (Ptr 4 0) m0) m0) = Some (r2, m2) ∧
    calls m2 = calls (result_mem (wrap_crypt_gensalt_rn (Ptr 4 0) m0) m0) ++
      [call_crypt_r (Ptr 1 0) (result_ptr (wrap_crypt_gensalt_rn (Ptr 4 0) m0)) data] ∧
    (r2 = NULL ↔
     (lib_crypt_r (Some (list_byte_of_string "correct horse")) (Some salt)
        zeroed_data).1 = None ∨
     can_copy (hash_output (Some (list_byte_of_string "correct horse")) (Some salt))
       (result_mem (wrap_crypt_gensalt_rn (Ptr 4 0) m0) m0) = false) ∧
    (r2 ≠ NULL →
     text m2 r2 =
       Some (hash_output (Some (list_byte_of_string "correct horse")) (Some salt))) ∧
    text m2 (result_ptr (wrap_crypt_gensalt_rn (Ptr 4 0) m0)) = Some salt.
Proof.
  apply (salt_then_hash m0 (Ptr 4 0) (Ptr 1 0)).
  - reflexivity.
  - vm_compute. reflexivity.
  - vm_compute. discriminate.
Defined.

(** The run behind it: the salt [$6$abcd], then the hash of
    [correct horse] under it. *)
Example salt_then_hash_run :
  let run1 := wrap_crypt_gensalt_rn (Ptr 4 0) m0 in
  let run2 := wrap_crypt_r (Ptr 1 0) (result_ptr run1) (result_mem run1 m0) in
  text (result_mem run1 m0) (result_ptr run1) = Some (list_byte_of_string "$6$abcd") ∧
  text (result_mem run2 m0) (result_ptr run2)
  = Some (list_byte_of_string "$6$abcd$esroh tcerroc") ∧
  calls (result_mem run2 m0)
  = [call_crypt_gensalt_rn (Ptr 4 0) 0 NULL 0 (Ptr 5 0) 192;
     call_crypt_r (Ptr 1 0) (Ptr 6 0) (Ptr 7 0)].
Proof. vm_compute. repeat split; reflexivity. Qed.

Lemma hash_then_verify_witness :
  ∃ r2 m2 data,
    text (result_mem (wrap_crypt_r (Ptr 1 0) (Ptr 2 0) m0) m0)
      (result_ptr (wrap_crypt_r (Ptr 1 0) (Ptr 2 0) m0))
    = Some (hash_output (Some (list_byte_of_string "correct horse"))
              (Some (list_byte_of_string "$6$salt"))) ∧
    wrap_crypt_r (Ptr 1 0) (result_ptr (wrap_crypt_r (Ptr 1 0) (Ptr 2 0) m0))
      (result_mem (wrap_crypt_r (Ptr 1 0) (Ptr 2 0) m0) m0) = Some (r2, m2) ∧
    calls m2 = calls (result_mem (wrap_crypt_r (Ptr 1 0) (Ptr 2 0) m0) m0) ++
      [call_crypt_r (Ptr 1 0) (result_ptr (wrap_crypt_r (Ptr 1 0) (Ptr 2 0) m0)) data] ∧
    text m2 (result_ptr (wrap_crypt_r (Ptr 1 0) (Ptr 2 0) m0))
    = Some (hash_output (Some (list_byte_of_string "correct horse"))
              (Some (list_byte_of_string "$6$salt"))) ∧
    (r2 = NULL ↔
     (lib_crypt_r (Some (list_byte_of_string "correct horse"))
        (Some (hash_output (Some (list_byte_of_string "correct horse"))
                 (Some (list_byte_of_string "$6$salt")))) zeroed_data).1 = None ∨
     can_copy
       (hash_output (Some (list_byte_of_string "correct horse"))
          (Some (hash_output (Some (list_byte_of_string "correct horse"))
                   (Some (list_byte_of_string "$6$salt")))))
       (result_mem (wrap_crypt_r (Ptr 1 0) (Ptr 2 0) m0) m0) = false) ∧
    (r2 ≠ NULL →
     text m2 r2 =
       Some (hash_output (Some (list_byte_of_string "correct horse"))
               (Some (hash_output (Some (list_byte_of_string "correct horse"))
                        (Some (list_byte_of_string "$6$salt")))))) ∧
    result_ptr (wrap_crypt_r (Ptr 1 0) (Ptr 2 0) m0) ≠ r2.
Proof.
  apply (hash_then_verify m0 (Ptr 1 0) (Ptr 2 0)).
  - reflexivity.
  - reflexivity.
  - vm_compute. reflexivity.
  - vm_compute. discriminate.
Defined.

Lemma wrap_crypt_r_results_distinct_witness :
  ∃ r1 m1 r2 m2,
    wrap_crypt_r (Ptr 1 0) (Ptr 2 0) m0 = Some (r1, m1) ∧
    wrap_crypt_r (Ptr 3 0) (Ptr 4 0) m1 = Some (r2, m2) ∧
    (r1 ≠ NULL →
     ∃ b t,
       r1 = Ptr b 0 ∧
       objects m2 !! b = Some (Object Allocated true (t ++ [NUL])) ∧
       text m1 r1 = Some t ∧
       text m2 r1 = Some t ∧
       r1 ≠ r2) ∧
    (r2 ≠ NULL → is_Some (text m2 r2)).
Proof.
  apply (wrap_crypt_r_results_distinct m0 (Ptr 1 0) (Ptr 2 0) (Ptr 3 0) (Ptr 4 0)).
  - exists (Some (list_byte_of_string "correct horse")). reflexivity.
  - exists (Some (list_byte_of_string "$6$salt")). reflexivity.
  - exists (Some []). reflexivity.
  - exists (Some (list_byte_of_string "$6$")). reflexivity.
Defined.

(** The run behind it: two hashes, in blocks 6 and 8, both readable
    after the second call. *)
Example hash_twice_run :
  let run1 := wrap_crypt_r (Ptr 1 0) (Ptr 2 0) m0 in
  let run2 := wrap_crypt_r (Ptr 3 0) (Ptr 4 0) (result_mem run1 m0) in
  result_ptr run1 = Ptr 6 0 ∧
  result_ptr run2 = Ptr 8 0 ∧
  text (result_mem run2 m0) (Ptr 6 0)
  = Some (list_byte_of_string "$6$salt$esroh tcerroc") ∧
  text (result_mem run2 m0) (Ptr 8 0) = Some (list_byte_of_string "$6$$").
Proof. vm_compute. repeat split; reflexivity. Qed.

Lemma wrap_crypt_gensalt_rn_results_distinct_witness :
  ∃ r1 m1 r2 m2,
    wrap_crypt_gensalt_rn (Ptr 3 0) m0 = Some (r1, m1) ∧
    wrap_crypt_gensalt_rn (Ptr 4 0) m1 = Some (r2, m2) ∧
    (r1 ≠ NULL →
     ∃ b t,
       r1 = Ptr b 0 ∧
       objects m2 !! b = Some (Object Allocated true (t ++ [NUL])) ∧
       text m1 r1 = Some t ∧
       text m2 r1 = Some t ∧
       r1 ≠ r2) ∧
    (r2 ≠ NULL → is_Some (text m2 r2)).
Proof.
  apply (wrap_crypt_gensalt_rn_results_distinct m0 (Ptr 3 0) (Ptr 4 0)).
  - exists []. reflexivity.
  - exists (list_byte_of_string "$6$"). reflexivity.
Defined.

(** The run behind it: two salts from the entropy [abcdefgh]. *)
Example salt_twice_run :
  let run1 := wrap_crypt_gensalt_rn (Ptr 3 0) m0 in
  let run2 := wrap_crypt_gensalt_rn (Ptr 4 0) (result_mem run1 m0) in
  result_ptr run1 = Ptr 6 0 ∧
  result_ptr run2 = Ptr 8 0 ∧
  text (result_mem run2 m0) (Ptr 6 0) = Some (list_byte_of_string "$y$abcd") ∧
  text (result_mem run2 m0) (Ptr 8 0) = Some (list_byte_of_string "$6$efgh").
Proof. vm_compute. repeat split; reflexivity. Qed.

Lemma wrap_crypt_gensalt_rn_buffer_size_witness :
  ∃ r m' arg b size,
    wrap_crypt_gensalt_rn (Ptr 4 0) m0 = Some (r, m') ∧
    last (calls m') = Some (call_crypt_gensalt_rn arg 0 NULL 0 (Ptr b 0) size) ∧
    size = Z.of_nat (length (bytes_of m' b)) ∧
    b ∉ dom (objects m0).
Proof.
  apply (wrap_crypt_gensalt_rn_buffer_size m0 (Ptr 4 0)).
  exists (list_byte_of_string "$6$"). reflexivity.
Defined.
